(** * brep2graph: incidence arrays and the simple-edge graph configuration

    A shallow embedding of [brep2graph/incidence_arrays.py] and
    [brep2graph/configurations.py] (with the block table of
    [brep2graph/features.py]), and the properties of the topology-to-graph
    pipeline proved over it.

    Conventions.
    - Entity ids and array entries are naturals in binary ([N]); a position
      in a Python list or numpy array is [N.to_nat] of the index.
    - A numpy array of dtype [uint32] is a [list N]; a store into it keeps
      the value modulo [2^32].
    - A Python exception is a value of [exn]; code that can raise returns
      [result].  A loop over a sequence is [for_each], threading the
      variables the loop assigns. *)

From Stdlib Require Import NArith Lia.
From stdpp Require Import base numbers option list strings gmap.

Local Open Scope string_scope.
Local Open Scope list_scope.
Local Open Scope N_scope.

(** ** Python exceptions *)

Inductive exn : Type :=
  | IndexError
  | KeyError
  | AttributeError
  | TypeError
  | AssertionError (msg : string).

Inductive result (A : Type) : Type :=
  | Ok (a : A)
  | Raise (e : exn).

Arguments Ok {A} a.
Arguments Raise {A} e.

#[global] Instance result_ret : MRet result := λ A a, Ok a.
#[global] Instance result_bind : MBind result := λ A B f m,
  match m with
  | Ok a => f a
  | Raise e => Raise e
  end.

Definition is_Ok {A} (r : result A) : Prop := ∃ a, r = Ok a.

(** [for x in xs: body], where the body may raise and [s] stands for the
    variables it assigns. *)
Fixpoint for_each {S A : Type} (body : S → A → result S) (xs : list A) (s : S)
  : result S :=
  match xs with
  | [] => Ok s
  | x :: xs' => s' ← body s x; for_each body xs' s'
  end.

(** [assert cond, msg] *)
Definition py_assert (cond : bool) (msg : string) : result unit :=
  if cond then Ok () else Raise (AssertionError msg).

(** A dictionary lookup of the external services; a missing key raises. *)
Definition key_lookup (o : option N) : result N :=
  match o with
  | Some v => Ok v
  | None => Raise KeyError
  end.

(** ** numpy *)

Definition uint32 (v : N) : N := v mod 2 ^ 32.

(** [a[i]] for a non-negative integer [i]. *)
Definition getitem (a : list N) (i : N) : result N :=
  match a !! N.to_nat i with
  | Some v => Ok v
  | None => Raise IndexError
  end.

(** [a[i] = v] on a [uint32] array. *)
Definition setitem (a : list N) (i v : N) : result (list N) :=
  if decide (N.to_nat i < length a)%nat
  then Ok (<[N.to_nat i := uint32 v]> a)
  else Raise IndexError.

(** [np.arange(n)] *)
Definition arange (n : nat) : list N := N.of_nat <$> seq 0 n.

(** [a + k] for an integer [k] *)
Definition ndarray_add (a : list N) (k : N) : list N := (λ v, v + k) <$> a.

(** [enumerate(a)] *)
Definition enumerate {A : Type} (a : list A) : list (N * A) :=
  imap (λ i x, (N.of_nat i, x)) a.

(** [np.all(a < bound)] *)
Definition all_lt (a : list N) (bound : N) : bool :=
  forallb (λ v, v <? bound) a.

(** A two-dimensional array: [shape[1]] is kept beside the rows so that
    an array without rows still has a width. *)
Record matrix (Cell : Type) : Type := Matrix {
  shape1 : nat;
  rows : list (list Cell)
}.

Arguments Matrix {Cell} shape1 rows.
Arguments shape1 {Cell} m.
Arguments rows {Cell} m.

Definition shape0 {Cell} (m : matrix Cell) : nat := length (rows m).

Definition well_shaped {Cell} (m : matrix Cell) : Prop :=
  Forall (λ r, length r = shape1 m) (rows m).

(** [np.zeros((n, w))] *)
Definition zeros {Cell} (zero : Cell) (n w : nat) : matrix Cell :=
  Matrix w (replicate n (replicate w zero)).

(** ** External collaborators: the occwl body and entity mapper

    Neither is code of this repository.  A coedge is an entity with a method
    [reversed_edge]; a wire is the sequence [wire.ordered_edges()]; the
    entity mapper is the record of the methods the builder calls, a lookup
    of an entity that is not registered being a [KeyError] ([None]). *)

Class OrientedEdge (Coedge : Type) : Type :=
  reversed_edge : Coedge → Coedge.

Record EntityMapper (Coedge Face : Type) : Type := {
  oriented_edge_map_len : N;            (* len(entity_mapper.oriented_edge_map) *)
  oriented_edge_index : Coedge → option N;
  oriented_edge_exists : Coedge → bool;
  edge_index : Coedge → option N;
  face_index : Face → option N
}.

Arguments oriented_edge_map_len {Coedge Face} e.
Arguments oriented_edge_index {Coedge Face} e c.
Arguments oriented_edge_exists {Coedge Face} e c.
Arguments edge_index {Coedge Face} e c.
Arguments face_index {Coedge Face} e f.

Record Compound (Coedge Face : Type) : Type := {
  wires : list (list Coedge);                 (* body.wires() *)
  faces : list Face;                          (* body.faces() *)
  wires_from_face : Face → list (list Coedge) (* body.wires_from_face(face) *)
}.

Arguments wires {Coedge Face} c.
Arguments faces {Coedge Face} c.
Arguments wires_from_face {Coedge Face} c f.

(** ** incidence_arrays.py *)

Record IncidenceArrays : Type := {
  next : list N;
  mate : list N;
  coedge_to_face : list N;
  coedge_to_edge : list N
}.

(** The variables of the wire loop (lines 60-92): the arrays it writes and
    the two indices it carries from one coedge to the next. *)
Record wire_vars : Type := WireVars {
  next_ : list N;
  mate_ : list N;
  coedge_to_edge_ : list N;
  first_coedge_index : option N;
  previous_coedge_index : option N
}.

Definition share_msg : string :=
  "Coedge and it's mate should share the edge.".

(** [a[i] = v] where [i] and [v] may be [None]: a [None] value cannot be
    stored in an integer array, a [None] index is [np.newaxis] and the value
    is broadcast over the whole array. *)
Definition setitem_opt (a : list N) (i v : option N) : result (list N) :=
  match v with
  | None => Raise TypeError
  | Some v =>
      match i with
      | Some i => setitem a i v
      | None => Ok (replicate (length a) (uint32 v))
      end
  end.

Section Builder.
Context {Coedge Face : Type} `{OrientedEdge Coedge}.
Variable body : Compound Coedge Face.
Variable entity_mapper : EntityMapper Coedge Face.

(** Lines 65-89: the body of [for coedge in wire.ordered_edges()]. *)
Definition visit_coedge (s : wire_vars) (coedge : Coedge) : result wire_vars :=
  coedge_index ← key_lookup (oriented_edge_index entity_mapper coedge);
  edge_ix ← key_lookup (edge_index entity_mapper coedge);
  let mating_coedge := reversed_edge coedge in
  mating_coedge_index ←
    (if oriented_edge_exists entity_mapper mating_coedge
     then key_lookup (oriented_edge_index entity_mapper mating_coedge)
     else Ok coedge_index);
  mate' ← setitem (mate_ s) coedge_index mating_coedge_index;
  mating_edge_ix ← key_lookup (edge_index entity_mapper mating_coedge);
  _ ← py_assert (edge_ix =? mating_edge_ix) share_msg;
  c2e' ← setitem (coedge_to_edge_ s) coedge_index edge_ix;
  c2e'' ← setitem c2e' mating_coedge_index edge_ix;
  next' ←
    match first_coedge_index s with
    | None => Ok (next_ s)
    | Some _ => setitem_opt (next_ s) (previous_coedge_index s) (Some coedge_index)
    end;
  Ok {| next_ := next';
        mate_ := mate';
        coedge_to_edge_ := c2e'';
        first_coedge_index :=
          match first_coedge_index s with
          | None => Some coedge_index
          | Some first => Some first
          end;
        previous_coedge_index := Some coedge_index |}.

(** Lines 62-92: the body of [for wire in body.wires()], on the three
    arrays that loop writes. *)
Definition link_wire (arrs : list N * list N * list N) (wire : list Coedge)
  : result (list N * list N * list N) :=
  let '(nxt, mt, c2e) := arrs in
  s ← for_each visit_coedge wire
        {| next_ := nxt; mate_ := mt; coedge_to_edge_ := c2e;
           first_coedge_index := None; previous_coedge_index := None |};
  next' ← setitem_opt (next_ s) (previous_coedge_index s) (first_coedge_index s);
  Ok (next', mate_ s, coedge_to_edge_ s).

(** Lines 94-99. *)
Definition assign_faces (coedge_to_face : list N) : result (list N) :=
  for_each (λ c2f face,
    face_ix ← key_lookup (face_index entity_mapper face);
    for_each (λ c2f wire,
      for_each (λ c2f coedge,
        coedge_index ← key_lookup (oriented_edge_index entity_mapper coedge);
        setitem c2f coedge_index face_ix) wire c2f)
      (wires_from_face body face) c2f)
    (faces body) coedge_to_face.

Definition coedges_num : N := oriented_edge_map_len entity_mapper.

(** Lines 51-52. *)
Definition initializer : list N :=
  replicate (N.to_nat coedges_num) (uint32 coedges_num).

(** Lines 46-99: the arrays as they stand before the four assertions. *)
Definition fill_incidence_arrays : result IncidenceArrays :=
  '(nxt, mt, c2e) ← for_each link_wire (wires body)
                      (initializer, initializer, initializer);
  c2f ← assign_faces initializer;
  Ok {| next := nxt; mate := mt; coedge_to_face := c2f; coedge_to_edge := c2e |}.

(** Lines 101-104. *)
Definition validate (ia : IncidenceArrays) : result unit :=
  _ ← py_assert (all_lt (next ia) coedges_num)
        "next contains a coedge without next";
  _ ← py_assert (all_lt (mate ia) coedges_num)
        "mate contains a coedge without mate";
  _ ← py_assert (all_lt (coedge_to_face ia) coedges_num)
        "coedge_to_face contains coedge without relation to face";
  py_assert (all_lt (coedge_to_edge ia) coedges_num)
    "next contains coedge without relation to edge".

Definition build_incidence_arrays : result IncidenceArrays :=
  ia ← fill_incidence_arrays;
  _ ← validate ia;
  Ok ia.
End Builder.

(** ** Python objects

    [simple_edge] reads its [incidence_arrays] argument only through
    attribute access, so the argument is modelled as the finite map from
    attribute name to array; a missing attribute raises. *)

Definition getattr (o : gmap string (list N)) (name : string) : result (list N) :=
  match o !! name with
  | Some v => Ok v
  | None => Raise AttributeError
  end.

(** The data attributes of an [IncidenceArrays] named tuple are its four
    declared fields. *)
Definition attributes (ia : IncidenceArrays) : gmap string (list N) :=
  list_to_map
    [("next", next ia); ("mate", mate ia);
     ("coedge_to_face", coedge_to_face ia); ("coedge_to_edge", coedge_to_edge ia)].

(** ** configurations.py *)

Abbreviation Edges := (list (N * N)).

Definition _add_undirect_edge (from_ to_ : N) (edges : Edges) : Edges :=
  (edges ++ [(from_, to_)]) ++ [(to_, from_)].

Definition _f (coedge_to_face coedge_to_node face_to_node : list N)
    (edges : Edges) : result Edges :=
  for_each (λ edges '(coedge_ix, face_ix),
    coedge ← getitem coedge_to_node coedge_ix;
    face ← getitem face_to_node face_ix;
    Ok (_add_undirect_edge coedge face edges))
    (enumerate coedge_to_face) edges.

Definition _mf (coedge_to_mate coedge_to_face coedge_to_node face_to_node : list N)
    (edges : Edges) : result Edges :=
  for_each (λ edges '(coedge_ix, _),
    coedge ← getitem coedge_to_node coedge_ix;
    mate_ix ← getitem coedge_to_mate coedge_ix;
    mate_face_ix ← getitem coedge_to_face mate_ix;
    mate_face ← getitem face_to_node mate_face_ix;
    Ok (_add_undirect_edge coedge mate_face edges))
    (enumerate coedge_to_face) edges.

Definition _e (coedge_to_edge coedge_to_node edge_to_node : list N)
    (edges : Edges) : result Edges :=
  for_each (λ edges '(coedge_ix, edge_ix),
    coedge ← getitem coedge_to_node coedge_ix;
    edge ← getitem edge_to_node edge_ix;
    Ok (_add_undirect_edge coedge edge edges))
    (enumerate coedge_to_edge) edges.

Definition _i (coedges_to_coedges coedge_to_node : list N) (edges : Edges)
  : result Edges :=
  for_each (λ edges coedge_ix,
    coedge ← getitem coedge_to_node coedge_ix;
    Ok (edges ++ [(coedge, coedge)]))
    coedges_to_coedges edges.

Definition _m (coedge_to_mate coedge_to_node : list N) (edges : Edges)
  : result Edges :=
  for_each (λ edges '(coedge_ix, mate_coedge_ix),
    coedge ← getitem coedge_to_node coedge_ix;
    mate_coedge ← getitem coedge_to_node mate_coedge_ix;
    Ok (edges ++ [(coedge, mate_coedge)]))
    (enumerate coedge_to_mate) edges.

(** The values of the returned mapping: a feature matrix or an id array. *)
Inductive value (Cell : Type) : Type :=
  | Features (m : matrix Cell)
  | Ids (a : list N).

Arguments Features {Cell} m.
Arguments Ids {Cell} a.

Section Configurations.
Context {Cell : Type}.

Definition _create_graph (face_features edge_features coedge_features : matrix Cell)
    (edges : Edges) : result (gmap string (value Cell)) :=
  let '(senders, receivers) :=
    foldl (λ '(senders, receivers) '(f, t), (senders ++ [f], receivers ++ [t]))
          ([], []) edges in
  _ ← py_assert (length senders =? length receivers)%nat EmptyString;
  Ok (list_to_map
        [("face_features", Features face_features);
         ("edge_features", Features edge_features);
         ("coedge_features", Features coedge_features);
         ("senders", Ids senders);
         ("receivers", Ids receivers)]).

Definition simple_edge (face_features edge_features coedge_features : matrix Cell)
    (incidence_arrays : gmap string (list N))
  : result (gmap string (value Cell)) :=
  let faces_num := shape0 face_features in
  let edges_num := shape0 edge_features in
  let coedges_num := shape0 coedge_features in
  let face_to_node := arange faces_num in
  let edge_to_node := ndarray_add (arange edges_num) (N.of_nat faces_num) in
  let coedge_to_node :=
    ndarray_add (ndarray_add (arange coedges_num) (N.of_nat faces_num))
                (N.of_nat edges_num) in
  let edges : Edges := [] in
  c2f ← getattr incidence_arrays "coedge_to_face";
  edges ← _f c2f coedge_to_node face_to_node edges;
  c2m ← getattr incidence_arrays "coedge_to_mate";
  c2f ← getattr incidence_arrays "coedge_to_face";
  edges ← _mf c2m c2f coedge_to_node face_to_node edges;
  c2e ← getattr incidence_arrays "coedge_to_edge";
  edges ← _e c2e coedge_to_node edge_to_node edges;
  edges ← _i (arange coedges_num) coedge_to_node edges;
  c2m ← getattr incidence_arrays "coedge_to_mate";
  edges ← _m c2m coedge_to_node edges;
  _create_graph face_features edge_features coedge_features edges.

(** *** features.py, lines 46-62: the block table of [features_from_body] *)

Variable zero : Cell.

(** One row of blocks of [np.block]: the blocks side by side. *)
Definition hstack (a b : matrix Cell) : matrix Cell :=
  Matrix (shape1 a + shape1 b) (zip_with app (rows a) (rows b)).

(** The rows of blocks of [np.block], one below the other. *)
Definition vstack (a b : matrix Cell) : matrix Cell :=
  Matrix (shape1 a) (rows a ++ rows b).

Definition features_block (face_features edge_features coedge_features : matrix Cell)
  : matrix Cell :=
  vstack
    (hstack face_features
       (zeros zero (shape0 face_features)
              (shape1 edge_features + shape1 coedge_features)))
    (vstack
       (hstack (hstack (zeros zero (shape0 edge_features) (shape1 face_features))
                       edge_features)
               (zeros zero (shape0 edge_features) (shape1 coedge_features)))
       (hstack (zeros zero (shape0 coedge_features)
                      (shape1 face_features + shape1 edge_features))
               coedge_features)).
End Configurations.

(** ** Notions the properties are stated with *)

(** The directed edges of a graph: [zip(senders, receivers)]. *)
Definition graph_edges {Cell} (g : gmap string (value Cell)) : option Edges :=
  match g !! "senders", g !! "receivers" with
  | Some (Ids senders), Some (Ids receivers) => Some (zip senders receivers)
  | _, _ => None
  end.

(** [a[i]], with 0 outside the array. *)
Definition at_ (a : list N) (i : N) : N := default 0 (a !! N.to_nat i).

(** The wiring of the simple-edge kernel as the specification words it,
    for [F] faces, [E] edges and the coedges [0 .. C-1]: five blocks, each
    in coedge order. *)
Section KernelSpec.
Variables (F E : N) (C : nat).
Variables (coedge_to_face coedge_to_mate coedge_to_edge : list N).

Definition face_node (f : N) : N := f.
Definition edge_node (e : N) : N := F + e.
Definition coedge_node (c : N) : N := F + E + c.

Definition undirected (a b : N) : Edges := [(a, b); (b, a)].

Definition owning_face_block : Edges :=
  c ← arange C;
  undirected (coedge_node c) (face_node (at_ coedge_to_face c)).

Definition mate_face_block : Edges :=
  c ← arange C;
  undirected (coedge_node c)
             (face_node (at_ coedge_to_face (at_ coedge_to_mate c))).

Definition underlying_edge_block : Edges :=
  c ← arange C;
  undirected (coedge_node c) (edge_node (at_ coedge_to_edge c)).

Definition self_loop_block : Edges :=
  (λ c, (coedge_node c, coedge_node c)) <$> arange C.

Definition mate_block : Edges :=
  (λ c, (coedge_node c, coedge_node (at_ coedge_to_mate c))) <$> arange C.

Definition kernel_edges : Edges :=
  owning_face_block ++ mate_face_block ++ underlying_edge_block
    ++ self_loop_block ++ mate_block.
End KernelSpec.

(** What the five loops of [simple_edge] append when the arrays need not be
    as long as the coedge feature matrix: every loop runs over its own array,
    the self-loops over the [C] coedge rows. *)
Definition emitted_edges (F E : N) (C : nat)
    (coedge_to_face coedge_to_mate coedge_to_edge : list N) : Edges :=
  owning_face_block F E (length coedge_to_face) coedge_to_face
    ++ mate_face_block F E (length coedge_to_face) coedge_to_face coedge_to_mate
    ++ underlying_edge_block F E (length coedge_to_edge) coedge_to_edge
    ++ self_loop_block F E C
    ++ mate_block F E (length coedge_to_mate) coedge_to_mate.

(** The inputs on which no index of the five loops is out of range. *)
Definition kernel_accepts (F E C : nat)
    (coedge_to_face coedge_to_mate coedge_to_edge : list N) : Prop :=
  (length coedge_to_face ≤ C)%nat ∧
  Forall (λ f, f < N.of_nat F) coedge_to_face ∧
  (∀ i, (i < length coedge_to_face)%nat →
     ∃ m mf, coedge_to_mate !! i = Some m ∧
             coedge_to_face !! N.to_nat m = Some mf ∧ mf < N.of_nat F) ∧
  (length coedge_to_edge ≤ C)%nat ∧
  Forall (λ e, e < N.of_nat E) coedge_to_edge ∧
  (length coedge_to_mate ≤ C)%nat ∧
  Forall (λ m, m < N.of_nat C) coedge_to_mate.

(** The mapping [_create_graph] returns for a list of directed edges. *)
Definition graph_of {Cell} (face_features edge_features coedge_features : matrix Cell)
    (edges : Edges) : gmap string (value Cell) :=
  list_to_map
    [("face_features", Features face_features);
     ("edge_features", Features edge_features);
     ("coedge_features", Features coedge_features);
     ("senders", Ids edges.*1);
     ("receivers", Ids edges.*2)].

(** The coedges met by following [next] from [c], [n] of them. *)
Fixpoint walk (nxt : list N) (n : nat) (c : N) : list N :=
  match n with
  | O => []
  | S n' =>
      c :: match nxt !! N.to_nat c with
           | Some c' => walk nxt n' c'
           | None => []
           end
  end.

(** A sequence of stores [a[k] = v] into a [uint32] array, in order. *)
Definition store_all (a : list N) (writes : list (N * N)) : list N :=
  foldl (λ a '(k, v), <[N.to_nat k := uint32 v]> a) a writes.

(** The stores into [next] that one wire makes, from the ids of its coedges
    in loop order: each id to its successor, the last back to the first. *)
Definition wire_links (ids : list N) : list (N * N) :=
  zip ids (rotate 1 ids).

(** Where the entries of [mate] and [coedge_to_edge] come from while the
    wire loop runs: an entry at position [i] is either the initial value or
    what the visit of a coedge with id [i] (or, for [coedge_to_edge], of a
    coedge whose mate has id [i]) has stored. *)
Section Provenance.
Context {Coedge Face : Type} `{OrientedEdge Coedge}.
Variable em : EntityMapper Coedge Face.

Definition mate_written (i : nat) (v : N) : Prop :=
  ∃ x ci e,
    oriented_edge_index em x = Some ci ∧ N.to_nat ci = i ∧
    edge_index em x = Some e ∧ edge_index em (reversed_edge x) = Some e ∧
    if oriented_edge_exists em (reversed_edge x)
    then ∃ mi, oriented_edge_index em (reversed_edge x) = Some mi ∧
               mi < coedges_num em ∧ v = uint32 mi
    else v = uint32 ci.

Definition edge_written (i : nat) (v : N) : Prop :=
  ∃ x ci e,
    oriented_edge_index em x = Some ci ∧ N.to_nat ci = i ∧
    edge_index em x = Some e ∧ v = uint32 e.

Definition provenance (mt c2e : list N) : Prop :=
  length mt = N.to_nat (coedges_num em) ∧
  length c2e = N.to_nat (coedges_num em) ∧
  (∀ i v, mt !! i = Some v → v = uint32 (coedges_num em) ∨ mate_written i v) ∧
  (∀ i v, c2e !! i = Some v → v = uint32 (coedges_num em) ∨ edge_written i v).
End Provenance.

(** ** Sample bodies

    A coedge is an edge id with an orientation flag, reversing flips the
    flag; the entity mapper numbers the oriented edges in the order of a
    given list and takes the edge id from the coedge. *)

Module Sample.
#[export] Instance flag_reversed : OrientedEdge (N * bool) :=
  λ c, (c.1, negb c.2).

Fixpoint position (x : N * bool) (l : list (N * bool)) : option N :=
  match l with
  | [] => None
  | y :: l' =>
      if decide (x = y) then Some 0
      else N.succ <$> position x l'
  end.

Definition mapper (oriented_edge_map : list (N * bool)) (n_edges n_faces : N)
  : EntityMapper (N * bool) N :=
  {| oriented_edge_map_len := N.of_nat (length oriented_edge_map);
     oriented_edge_index := λ c, position c oriented_edge_map;
     oriented_edge_exists := λ c, bool_decide (c ∈ oriented_edge_map);
     edge_index := λ c, if decide (c.1 < n_edges) then Some c.1 else None;
     face_index := λ f, if decide (f < n_faces) then Some f else None |}.

Definition body_of (face_wires : list (list (list (N * bool))))
  : Compound (N * bool) N :=
  {| wires := concat face_wires;
     faces := N.of_nat <$> seq 0 (length face_wires);
     wires_from_face := λ f, default [] (face_wires !! N.to_nat f) |}.

(** Two faces that meet in edge 0; edges 1 and 2 have one coedge only. *)
Definition two_faces : list (list (list (N * bool))) :=
  [ [ [(0, false); (1, false)] ]; [ [(0, true); (2, false)] ] ].

Definition two_faces_body : Compound (N * bool) N := body_of two_faces.

Definition two_faces_mapper : EntityMapper (N * bool) N :=
  mapper (concat (concat two_faces)) 3 2.

(** A wire that uses the coedge of edge 0 twice, beside a wire of its own. *)
Definition shared_coedge : list (list (list (N * bool))) :=
  [ [ [(0, false); (1, false)]; [(0, false); (2, false)] ] ].

Definition shared_coedge_body : Compound (N * bool) N := body_of shared_coedge.

Definition shared_coedge_mapper : EntityMapper (N * bool) N :=
  mapper [(0, false); (1, false); (2, false)] 3 1.

(** The input of tests/configurations_test.py: two faces, the edge
    between them and its two coedges; every feature matrix is
    [np.zeros((n, 1))]. *)
Definition test_features (n : nat) : matrix N := zeros 0 n 1.

Definition test_incidence_arrays : gmap string (list N) :=
  list_to_map
    [("coedge_to_next", [0]); ("coedge_to_mate", [1; 0]);
     ("coedge_to_face", [0; 1]); ("coedge_to_edge", [0; 0])].

(** Arrays for one coedge, to go with two coedge feature rows. *)
Definition short_incidence_arrays : gmap string (list N) :=
  list_to_map
    [("coedge_to_mate", [0]); ("coedge_to_face", [0]); ("coedge_to_edge", [0])].

(** Arrays for no coedge at all. *)
Definition empty_incidence_arrays : gmap string (list N) :=
  list_to_map
    [("coedge_to_mate", []); ("coedge_to_face", []); ("coedge_to_edge", [])].
End Sample.

(** * Properties *)

(** ** The error monad and loops *)

Lemma bind_Ok {A B} (m : result A) (f : A → result B) (b : B) :
  m ≫= f = Ok b ↔ ∃ a, m = Ok a ∧ f a = Ok b.
Proof.
  destruct m as [a|e]; simpl; split.
  - intros Hf. by exists a.
  - by intros (a' & [= ->] & Hf).
  - done.
  - by intros (a' & ? & _).
Qed.

Lemma bind_Raise {A B} (m : result A) (f : A → result B) (e : exn) :
  m ≫= f = Raise e ↔ m = Raise e ∨ ∃ a, m = Ok a ∧ f a = Raise e.
Proof.
  destruct m as [a|e']; simpl; split.
  - intros Hf. right. by exists a.
  - intros [?|(a' & [= ->] & Hf)]; done.
  - intros [= ->]. by left.
  - intros [[= ->]|(a' & ? & _)]; done.
Qed.

Lemma py_assert_Ok cond msg u : py_assert cond msg = Ok u ↔ cond = true.
Proof. destruct cond, u; simpl; split; done. Qed.

Lemma key_lookup_Ok o v : key_lookup o = Ok v ↔ o = Some v.
Proof. destruct o; simpl; split; congruence. Qed.

(** Splits a hypothesis [x ← m; k = Ok r] into [m = Ok x] and [k = Ok r]. *)
Ltac inv_bind H :=
  repeat match type of H with
  | mbind _ _ = Ok _ =>
      let a := fresh "a" in
      let H1 := fresh "Hstep" in
      apply bind_Ok in H as (a & H1 & H)
  end.

Lemma for_each_app {S A} (body : S → A → result S) xs ys s :
  for_each body (xs ++ ys) s = for_each body xs s ≫= for_each body ys.
Proof.
  revert s. induction xs as [|x xs IH]; intros s; simpl; [done|].
  destruct (body s x); simpl; auto.
Qed.

Lemma for_each_ext {S A} (body body' : S → A → result S) xs s :
  (∀ s x, body s x = body' s x) → for_each body xs s = for_each body' xs s.
Proof.
  intros Hext. revert s. induction xs as [|x xs IH]; intros s; simpl; [done|].
  rewrite Hext. destruct (body' s x); simpl; auto.
Qed.

(** An invariant of the loop body holds after the loop. *)
Lemma for_each_invariant {S A} (P : S → Prop) (body : S → A → result S) xs s s' :
  (∀ s x s', x ∈ xs → P s → body s x = Ok s' → P s') →
  P s → for_each body xs s = Ok s' → P s'.
Proof.
  revert s. induction xs as [|x xs IH]; intros s Hbody HP Hrun; simpl in Hrun.
  - by injection Hrun as <-.
  - apply bind_Ok in Hrun as (s1 & Hx & Hrun).
    eapply IH; [|eapply Hbody; [left| |]; eauto|done].
    intros s2 y s3 Hy. apply Hbody. by right.
Qed.

(** A loop whose body appends what it computes from the element. *)
Lemma for_each_emit {A B} (emit : A → result (list B)) xs s s' :
  for_each (λ s x, c ← emit x; Ok (s ++ c)) xs s = Ok s' ↔
  ∃ cs, Forall2 (λ x c, emit x = Ok c) xs cs ∧ s' = s ++ concat cs.
Proof.
  revert s. induction xs as [|x xs IH]; intros s; simpl.
  - split.
    + intros [= <-]. exists []. by rewrite app_nil_r.
    + intros (cs & Hcs & ->). apply Forall2_nil_inv_l in Hcs as ->.
      by rewrite app_nil_r.
  - rewrite bind_Ok. split.
    + intros (s1 & Hx & Hrun). apply bind_Ok in Hx as (c & Hc & [= <-]).
      apply IH in Hrun as (cs & Hcs & ->). exists (c :: cs). split.
      * by constructor.
      * by rewrite <-app_assoc.
    + intros (cs & Hcs & ->).
      apply Forall2_cons_inv_l in Hcs as (c & cs' & Hc & Hcs & ->).
      exists (s ++ c). split; [by rewrite Hc|].
      apply IH. exists cs'. split; [done|]. simpl. by rewrite app_assoc.
Qed.

(** ** numpy arrays *)

Lemma uint32_small v : v < 2 ^ 32 → uint32 v = v.
Proof. intros Hv. unfold uint32. by apply N.mod_small. Qed.

Lemma uint32_le v : uint32 v ≤ v.
Proof. unfold uint32. apply N.Div0.mod_le. Qed.

Lemma getitem_Ok a i v : getitem a i = Ok v ↔ a !! N.to_nat i = Some v.
Proof. unfold getitem. destruct (a !! N.to_nat i); split; congruence. Qed.

Lemma setitem_Ok a i v a' :
  setitem a i v = Ok a' ↔
  (N.to_nat i < length a)%nat ∧ a' = <[N.to_nat i := uint32 v]> a.
Proof.
  unfold setitem. case_decide; split.
  - by intros [= <-].
  - by intros [_ ->].
  - done.
  - by intros [? _].
Qed.

Lemma length_arange n : length (arange n) = n.
Proof. unfold arange. by rewrite length_fmap, length_seq. Qed.

Lemma lookup_arange n i :
  arange n !! i = if decide (i < n)%nat then Some (N.of_nat i) else None.
Proof.
  unfold arange. rewrite list_lookup_fmap. case_decide.
  - by rewrite lookup_seq_lt.
  - rewrite lookup_seq_ge; [done|lia].
Qed.

Lemma getitem_arange n i v :
  getitem (arange n) i = Ok v ↔ v = i ∧ (N.to_nat i < n)%nat.
Proof.
  rewrite getitem_Ok, lookup_arange. case_decide; split.
  - intros [= <-]. split; [lia|done].
  - intros [-> _]. f_equal. lia.
  - done.
  - by intros [_ ?].
Qed.

Lemma getitem_ndarray_add a k i v :
  getitem (ndarray_add a k) i = Ok v ↔ ∃ u, getitem a i = Ok u ∧ v = u + k.
Proof.
  rewrite getitem_Ok. unfold ndarray_add. rewrite list_lookup_fmap.
  setoid_rewrite getitem_Ok. destruct (a !! N.to_nat i) as [u|]; simpl; split.
  - intros [= <-]. by exists u.
  - by intros (u' & [= <-] & ->).
  - done.
  - by intros (u' & ? & _).
Qed.

Lemma all_lt_Forall a bound : all_lt a bound = true ↔ Forall (λ v, v < bound) a.
Proof.
  unfold all_lt. rewrite forallb_forall, Forall_forall.
  split; intros Hall v Hv.
  - apply N.ltb_lt, Hall. by apply list_elem_of_In.
  - apply N.ltb_lt, Hall. by apply list_elem_of_In.
Qed.

Lemma length_enumerate {A} (a : list A) : length (enumerate a) = length a.
Proof. unfold enumerate. by rewrite length_imap. Qed.

Lemma lookup_enumerate {A} (a : list A) i :
  enumerate a !! i = (λ x, (N.of_nat i, x)) <$> a !! i.
Proof. unfold enumerate. by rewrite list_lookup_imap. Qed.

Lemma elem_of_enumerate {A} (a : list A) i x :
  (i, x) ∈ enumerate a ↔ a !! N.to_nat i = Some x.
Proof.
  rewrite list_elem_of_lookup. setoid_rewrite lookup_enumerate. split.
  - intros (k & Hk). destruct (a !! k) as [y|] eqn:Hy; simplify_eq/=.
    by rewrite Nat2N.id.
  - intros Hx. exists (N.to_nat i). rewrite Hx. simpl. by rewrite N2Nat.id.
Qed.

(** [enumerate] pairs every position of the array with its entry. *)
Lemma enumerate_arange (a : list N) :
  enumerate a = (λ c, (c, at_ a c)) <$> arange (length a).
Proof.
  apply list_eq. intros i.
  rewrite lookup_enumerate, list_lookup_fmap, lookup_arange.
  case_decide as Hi.
  - apply lookup_lt_is_Some in Hi as [x Hx]. rewrite Hx. simpl.
    unfold at_. by rewrite Nat2N.id, Hx.
  - rewrite lookup_ge_None_2; [done|lia].
Qed.

Lemma for_each_emit_pure {A B} (emit : A → result (list B)) (P : A → Prop)
    (pure : A → list B) xs s s' :
  (∀ x c, emit x = Ok c ↔ P x ∧ c = pure x) →
  for_each (λ s x, c ← emit x; Ok (s ++ c)) xs s = Ok s' ↔
  Forall P xs ∧ s' = s ++ (xs ≫= pure).
Proof.
  intros Hemit. rewrite for_each_emit. split.
  - intros (cs & Hcs & ->).
    assert (Forall P xs ∧ concat cs = xs ≫= pure) as [? ->]; [|done].
    induction Hcs as [|x c xs cs Hx _ [IH1 IH2]]; [done|].
    apply Hemit in Hx as [? ->]. split; [by constructor|].
    rewrite bind_cons. simpl. by rewrite IH2.
  - intros [HP ->]. exists (pure <$> xs). split.
    + induction HP as [|x xs Hx _ IH]; constructor; [|done].
      by apply Hemit.
    + f_equal. clear HP. induction xs as [|x xs IH]; [done|].
      rewrite bind_cons, fmap_cons. simpl. by rewrite IH.
Qed.

(** ** The kernel: what each loop of configurations.py emits *)

Section Kernel.
Variables (F E C : nat).

Local Abbreviation face_to_node := (arange F).
Local Abbreviation edge_to_node := (ndarray_add (arange E) (N.of_nat F)).
Local Abbreviation coedge_to_node :=
  (ndarray_add (ndarray_add (arange C) (N.of_nat F)) (N.of_nat E)).
Local Abbreviation cn := (coedge_node (N.of_nat F) (N.of_nat E)).
Local Abbreviation en := (edge_node (N.of_nat F)).

Lemma face_to_node_Ok f v :
  getitem face_to_node f = Ok v ↔ v = face_node f ∧ f < N.of_nat F.
Proof. rewrite getitem_arange. unfold face_node. split; intros []; split; (done || lia). Qed.

Lemma edge_to_node_Ok e v :
  getitem edge_to_node e = Ok v ↔ v = en e ∧ e < N.of_nat E.
Proof.
  rewrite getitem_ndarray_add. setoid_rewrite getitem_arange.
  unfold edge_node. split.
  - intros (u & [-> ?] & ->). split; lia.
  - intros [-> ?]. exists e. repeat split; lia.
Qed.

Lemma coedge_to_node_Ok c v :
  getitem coedge_to_node c = Ok v ↔ v = cn c ∧ c < N.of_nat C.
Proof.
  rewrite getitem_ndarray_add. setoid_rewrite getitem_ndarray_add.
  setoid_rewrite getitem_arange. unfold coedge_node. split.
  - intros (u & (u' & [-> ?] & ->) & ->). split; lia.
  - intros [-> ?]. exists (c + N.of_nat F). split; [|lia].
    exists c. repeat split; lia.
Qed.

(** A condition on every [(position, entry)] of an array. *)
Lemma Forall_enumerate (a : list N) (P : N → N → Prop) :
  Forall (λ p, P p.1 p.2) (enumerate a) ↔
  ∀ i x, a !! N.to_nat i = Some x → P i x.
Proof.
  rewrite Forall_forall. split.
  - intros Hall i x Hx. by apply (Hall (i, x)), elem_of_enumerate.
  - intros Hall [i x] Hx. by apply Hall, elem_of_enumerate.
Qed.

Lemma positions_bounded (a : list N) :
  (∀ i x, a !! N.to_nat i = Some x → i < N.of_nat C) ↔ (length a ≤ C)%nat.
Proof.
  split.
  - intros Hall. destruct (decide (length a ≤ C)%nat) as [|Hgt]; [done|].
    destruct (lookup_lt_is_Some_2 a C) as [x Hx]; [lia|].
    specialize (Hall (N.of_nat C) x). rewrite Nat2N.id in Hall.
    specialize (Hall Hx). lia.
  - intros Hlen i x Hx. apply lookup_lt_Some in Hx. lia.
Qed.

(** A loop over [enumerate(a)] whose body appends a chunk. *)
Lemma for_each_enumerate {B} (a : list N) (emit : N * N → result (list B))
    (P : N → N → Prop) (pure : N → N → list B) s s' :
  (∀ i x c, emit (i, x) = Ok c ↔ P i x ∧ c = pure i x) →
  for_each (λ s p, c ← emit p; Ok (s ++ c)) (enumerate a) s = Ok s' ↔
  (∀ i x, a !! N.to_nat i = Some x → P i x) ∧
  s' = s ++ (arange (length a) ≫= λ c, pure c (at_ a c)).
Proof.
  intros Hemit.
  rewrite (for_each_emit_pure emit (λ p, P p.1 p.2) (λ p, pure p.1 p.2)).
  - rewrite (Forall_enumerate a P), enumerate_arange, list_fmap_bind. done.
  - intros [i x] c. apply Hemit.
Qed.

Lemma bind_unit_fmap {A B} (g : A → B) (l : list A) :
  l ≫= (λ x, [g x]) = g <$> l.
Proof.
  induction l as [|x l IH]; [done|].
  rewrite bind_cons, fmap_cons, IH. done.
Qed.

Lemma _f_Ok coedge_to_face edges edges' :
  _f coedge_to_face coedge_to_node face_to_node edges = Ok edges' ↔
  (length coedge_to_face ≤ C)%nat ∧
  Forall (λ f, f < N.of_nat F) coedge_to_face ∧
  edges' = edges ++ owning_face_block (N.of_nat F) (N.of_nat E)
                      (length coedge_to_face) coedge_to_face.
Proof.
  unfold _f.
  erewrite for_each_ext; [rewrite (for_each_enumerate _
    (λ p, coedge ← getitem coedge_to_node p.1;
          face ← getitem face_to_node p.2;
          Ok (undirected coedge face))
    (λ i f, i < N.of_nat C ∧ f < N.of_nat F)
    (λ i f, undirected (cn i) (face_node f)))|].
  - rewrite <-positions_bounded, Forall_lookup. unfold owning_face_block.
    split.
    + intros (Hall & ->). split; [|split; [|done]].
      * intros i x Hx. by destruct (Hall i x Hx).
      * intros i x Hx.
        by destruct (Hall (N.of_nat i) x); [rewrite Nat2N.id|].
    + intros (Hlen & Hall & ->). split; [|done].
      intros i x Hx. split; [by eapply Hlen|by eapply Hall].
  - intros i f c. simpl. rewrite bind_Ok.
    setoid_rewrite bind_Ok. setoid_rewrite coedge_to_node_Ok.
    setoid_rewrite face_to_node_Ok. split.
    + intros (? & [-> ?] & ? & [-> ?] & [= <-]). done.
    + intros [[? ?] ->]. eauto 10.
  - intros s [i f]. simpl.
    destruct (getitem coedge_to_node i); simpl; [|done].
    destruct (getitem face_to_node f); simpl; [|done].
    unfold _add_undirect_edge, undirected. by rewrite <-app_assoc.
Qed.

Lemma _e_Ok coedge_to_edge edges edges' :
  _e coedge_to_edge coedge_to_node edge_to_node edges = Ok edges' ↔
  (length coedge_to_edge ≤ C)%nat ∧
  Forall (λ e, e < N.of_nat E) coedge_to_edge ∧
  edges' = edges ++ underlying_edge_block (N.of_nat F) (N.of_nat E)
                      (length coedge_to_edge) coedge_to_edge.
Proof.
  unfold _e.
  erewrite for_each_ext; [rewrite (for_each_enumerate _
    (λ p, coedge ← getitem coedge_to_node p.1;
          edge ← getitem edge_to_node p.2;
          Ok (undirected coedge edge))
    (λ i e, i < N.of_nat C ∧ e < N.of_nat E)
    (λ i e, undirected (cn i) (en e)))|].
  - rewrite <-positions_bounded, Forall_lookup. unfold underlying_edge_block.
    split.
    + intros (Hall & ->). split; [|split; [|done]].
      * intros i x Hx. by destruct (Hall i x Hx).
      * intros i x Hx.
        by destruct (Hall (N.of_nat i) x); [rewrite Nat2N.id|].
    + intros (Hlen & Hall & ->). split; [|done].
      intros i x Hx. split; [by eapply Hlen|by eapply Hall].
  - intros i e c. simpl. rewrite bind_Ok.
    setoid_rewrite bind_Ok. setoid_rewrite coedge_to_node_Ok.
    setoid_rewrite edge_to_node_Ok. split.
    + intros (? & [-> ?] & ? & [-> ?] & [= <-]). done.
    + intros [[? ?] ->]. eauto 10.
  - intros s [i e]. simpl.
    destruct (getitem coedge_to_node i); simpl; [|done].
    destruct (getitem edge_to_node e); simpl; [|done].
    unfold _add_undirect_edge, undirected. by rewrite <-app_assoc.
Qed.

Lemma _m_Ok coedge_to_mate edges edges' :
  _m coedge_to_mate coedge_to_node edges = Ok edges' ↔
  (length coedge_to_mate ≤ C)%nat ∧
  Forall (λ m, m < N.of_nat C) coedge_to_mate ∧
  edges' = edges ++ mate_block (N.of_nat F) (N.of_nat E)
                      (length coedge_to_mate) coedge_to_mate.
Proof.
  unfold _m.
  erewrite for_each_ext; [rewrite (for_each_enumerate _
    (λ p, coedge ← getitem coedge_to_node p.1;
          mate_coedge ← getitem coedge_to_node p.2;
          Ok [(coedge, mate_coedge)])
    (λ i m, i < N.of_nat C ∧ m < N.of_nat C)
    (λ i m, [(cn i, cn m)]))|].
  - rewrite <-positions_bounded, Forall_lookup. unfold mate_block.
    rewrite bind_unit_fmap. split.
    + intros (Hall & ->). split; [|split; [|done]].
      * intros i x Hx. by destruct (Hall i x Hx).
      * intros i x Hx.
        by destruct (Hall (N.of_nat i) x); [rewrite Nat2N.id|].
    + intros (Hlen & Hall & ->). split; [|done].
      intros i x Hx. split; [by eapply Hlen|by eapply Hall].
  - intros i m c. simpl. rewrite bind_Ok.
    setoid_rewrite bind_Ok. setoid_rewrite coedge_to_node_Ok. split.
    + intros (? & [-> ?] & ? & [-> ?] & [= <-]). done.
    + intros [[? ?] ->]. eauto 10.
  - intros s [i m]. simpl.
    destruct (getitem coedge_to_node i); simpl; [|done].
    destruct (getitem coedge_to_node m); simpl; done.
Qed.

Lemma _i_Ok edges :
  _i (arange C) coedge_to_node edges =
  Ok (edges ++ self_loop_block (N.of_nat F) (N.of_nat E) C).
Proof.
  unfold _i.
  erewrite for_each_ext; [apply (for_each_emit_pure
    (λ c, coedge ← getitem coedge_to_node c; Ok [(coedge, coedge)])
    (λ c, c < N.of_nat C) (λ c, [(cn c, cn c)]))|].
  - intros c cs. rewrite bind_Ok. setoid_rewrite coedge_to_node_Ok. split.
    + intros (? & [-> ?] & [= <-]). done.
    + intros [? ->]. eauto.
  - split.
    + apply Forall_forall. intros c Hc.
      apply list_elem_of_lookup in Hc as [i Hi].
      rewrite lookup_arange in Hi. case_decide; simplify_eq. lia.
    + unfold self_loop_block. by rewrite bind_unit_fmap.
  - intros s c. simpl. by destruct (getitem coedge_to_node c).
Qed.

Lemma _mf_Ok coedge_to_mate coedge_to_face edges edges' :
  _mf coedge_to_mate coedge_to_face coedge_to_node face_to_node edges
    = Ok edges' ↔
  (length coedge_to_face ≤ C)%nat ∧
  (∀ i, (i < length coedge_to_face)%nat →
     ∃ m mf, coedge_to_mate !! i = Some m ∧
             coedge_to_face !! N.to_nat m = Some mf ∧ mf < N.of_nat F) ∧
  edges' = edges ++ mate_face_block (N.of_nat F) (N.of_nat E)
                      (length coedge_to_face) coedge_to_face coedge_to_mate.
Proof.
  unfold _mf.
  erewrite for_each_ext; [rewrite (for_each_enumerate _
    (λ p, coedge ← getitem coedge_to_node p.1;
          mate_ix ← getitem coedge_to_mate p.1;
          mate_face_ix ← getitem coedge_to_face mate_ix;
          mate_face ← getitem face_to_node mate_face_ix;
          Ok (undirected coedge mate_face))
    (λ i _, i < N.of_nat C ∧
            ∃ m mf, coedge_to_mate !! N.to_nat i = Some m ∧
                    coedge_to_face !! N.to_nat m = Some mf ∧ mf < N.of_nat F)
    (λ i _, undirected (cn i)
              (face_node (at_ coedge_to_face (at_ coedge_to_mate i)))))|].
  - rewrite <-positions_bounded. unfold mate_face_block. split.
    + intros (Hall & ->). split; [|split; [|done]].
      * intros i x Hx. by eapply Hall.
      * intros i Hi. apply lookup_lt_is_Some in Hi as [x Hx].
        destruct (Hall (N.of_nat i) x) as [_ Hm]; [by rewrite Nat2N.id|].
        by rewrite Nat2N.id in Hm.
    + intros (Hlen & Hall & ->). split; [|done].
      intros i x Hx. split; [by eapply Hlen|].
      eapply Hall, lookup_lt_Some, Hx.
  - intros i f c. simpl. rewrite bind_Ok.
    repeat setoid_rewrite bind_Ok. setoid_rewrite coedge_to_node_Ok.
    setoid_rewrite face_to_node_Ok. setoid_rewrite getitem_Ok. split.
    + intros (? & [-> ?] & m & Hm & mf & Hmf & ? & [-> ?] & [= <-]).
      split; [eauto 10|]. unfold at_. rewrite Hm. simpl. by rewrite Hmf.
    + intros [[? (m & mf & Hm & Hmf & ?)] ->].
      unfold at_. rewrite Hm. simpl. rewrite Hmf. simpl. eauto 15.
  - intros s [i f]. simpl.
    destruct (getitem coedge_to_node i); simpl; [|done].
    destruct (getitem coedge_to_mate i) as [m|]; simpl; [|done].
    destruct (getitem coedge_to_face m) as [mf|]; simpl; [|done].
    destruct (getitem face_to_node mf); simpl; [|done].
    unfold _add_undirect_edge, undirected. by rewrite <-app_assoc.
Qed.
End Kernel.

(** ** The assembler *)

Section Assembler.
Context {Cell : Type}.
Implicit Types face_features edge_features coedge_features : matrix Cell.
Implicit Types incidence_arrays : gmap string (list N).
Implicit Types g : gmap string (value Cell).

Lemma getattr_Ok incidence_arrays name a :
  getattr incidence_arrays name = Ok a ↔ incidence_arrays !! name = Some a.
Proof. unfold getattr. destruct (_ !! name); split; congruence. Qed.

Lemma split_edges (edges : Edges) senders receivers :
  foldl (λ '(senders, receivers) '(f, t), (senders ++ [f], receivers ++ [t]))
        (senders, receivers) edges
  = (senders ++ edges.*1, receivers ++ edges.*2).
Proof.
  revert senders receivers.
  induction edges as [|[f t] edges IH]; intros senders receivers; simpl.
  - by rewrite !app_nil_r.
  - rewrite IH. by rewrite <-!app_assoc.
Qed.

Lemma _create_graph_Ok face_features edge_features coedge_features edges :
  _create_graph face_features edge_features coedge_features edges
  = Ok (graph_of face_features edge_features coedge_features edges).
Proof.
  unfold _create_graph. rewrite split_edges. simpl.
  rewrite !length_fmap, Nat.eqb_refl. done.
Qed.

(** [simple_edge] returns exactly when the attributes it reads exist and
    no index is out of range, and then with the edges of the five loops. *)
Lemma simple_edge_Ok face_features edge_features coedge_features
    incidence_arrays g :
  simple_edge face_features edge_features coedge_features incidence_arrays
    = Ok g ↔
  ∃ c2f c2m c2e,
    incidence_arrays !! "coedge_to_face" = Some c2f ∧
    incidence_arrays !! "coedge_to_mate" = Some c2m ∧
    incidence_arrays !! "coedge_to_edge" = Some c2e ∧
    kernel_accepts (shape0 face_features) (shape0 edge_features)
                   (shape0 coedge_features) c2f c2m c2e ∧
    g = graph_of face_features edge_features coedge_features
          (emitted_edges (N.of_nat (shape0 face_features))
                         (N.of_nat (shape0 edge_features))
                         (shape0 coedge_features) c2f c2m c2e).
Proof.
  unfold simple_edge, kernel_accepts, emitted_edges.
  repeat setoid_rewrite bind_Ok.
  setoid_rewrite getattr_Ok. setoid_rewrite _f_Ok. setoid_rewrite _mf_Ok.
  setoid_rewrite _e_Ok. setoid_rewrite _m_Ok. setoid_rewrite _i_Ok.
  setoid_rewrite _create_graph_Ok.
  split.
  - intros (c2f & Hf & e1 & (? & ? & ->) & c2m & Hm & c2f' & Hf' &
            e2 & (? & ? & ->) & c2e & He & e3 & (? & ? & ->) &
            e4 & [= <-] & c2m' & Hm' & e5 & (? & ? & ->) & [= <-]).
    simplify_eq. exists c2f, c2m, c2e. rewrite <-!app_assoc. done.
  - intros (c2f & c2m & c2e & Hf & Hm & He &
            (? & ? & ? & ? & ? & ? & ?) & ->).
    rewrite !app_assoc. eauto 40.
Qed.
End Assembler.

(** ** The blocks of the kernel *)

Section Blocks.
Variables (F E : N).
Implicit Types (a : list N) (p : N * N).

Local Abbreviation cn := (coedge_node F E).
Local Abbreviation en := (edge_node F).

Lemma elem_of_arange n c : c ∈ arange n ↔ c < N.of_nat n.
Proof.
  rewrite list_elem_of_lookup. setoid_rewrite lookup_arange. split.
  - intros (i & Hi). case_decide; simplify_eq. lia.
  - intros Hc. exists (N.to_nat c). rewrite decide_True by lia.
    by rewrite N2Nat.id.
Qed.

Lemma at_lookup a c x : a !! N.to_nat c = Some x → at_ a c = x.
Proof. unfold at_. by intros ->. Qed.

Lemma length_bind_pairs n (f g : N → N) :
  length (arange n ≫= λ c, undirected (f c) (g c)) = (2 * n)%nat.
Proof.
  rewrite <-(length_arange n) at 2.
  induction (arange n) as [|c l IH]; [done|].
  rewrite bind_cons. simpl. rewrite IH. lia.
Qed.

Lemma elem_of_pairs n (f g : N → N) p :
  p ∈ arange n ≫= (λ c, undirected (f c) (g c)) ↔
  ∃ c, c < N.of_nat n ∧ (p = (f c, g c) ∨ p = (g c, f c)).
Proof.
  rewrite list_elem_of_bind. setoid_rewrite elem_of_arange.
  unfold undirected. split.
  - intros (c & Hp & Hc). exists c. split; [done|].
    apply elem_of_cons in Hp as [->|Hp]; [by left|].
    apply list_elem_of_singleton in Hp as ->. by right.
  - intros (c & Hc & [->| ->]); exists c; split; try done.
    + by left.
    + right. by left.
Qed.

Lemma elem_of_singles n (f g : N → N) p :
  p ∈ (λ c, (f c, g c)) <$> arange n ↔ ∃ c, c < N.of_nat n ∧ p = (f c, g c).
Proof.
  rewrite list_elem_of_fmap. setoid_rewrite elem_of_arange. split.
  - intros (c & -> & Hc). eauto.
  - intros (c & Hc & ->). eauto.
Qed.

Lemma length_kernel_edges C c2f c2m c2e :
  length (kernel_edges F E C c2f c2m c2e) = (8 * C)%nat.
Proof.
  unfold kernel_edges, owning_face_block, mate_face_block,
    underlying_edge_block, self_loop_block, mate_block.
  rewrite !length_app, !length_bind_pairs, !length_fmap, !length_arange. lia.
Qed.

Lemma emitted_edges_full C c2f c2m c2e :
  length c2f = C → length c2m = C → length c2e = C →
  emitted_edges F E C c2f c2m c2e = kernel_edges F E C c2f c2m c2e.
Proof. unfold emitted_edges, kernel_edges. by intros -> -> ->. Qed.
End Blocks.

Lemma graph_edges_graph_of {Cell} (ff ef cf : matrix Cell) (edges : Edges) :
  graph_edges (graph_of ff ef cf edges) = Some edges.
Proof.
  unfold graph_edges, graph_of.
  replace (list_to_map (M:=gmap string (value Cell)) _ !! "senders")
    with (Some (Ids (Cell:=Cell) edges.*1)) by (by vm_compute).
  replace (list_to_map (M:=gmap string (value Cell)) _ !! "receivers")
    with (Some (Ids (Cell:=Cell) edges.*2)) by (by vm_compute).
  by rewrite zip_fst_snd.
Qed.

(** ** The graph the assembler returns *)

Section AssemblerClaims.
Context {Cell : Type}.
Implicit Types face_features edge_features coedge_features : matrix Cell.
Implicit Types incidence_arrays : gmap string (list N).
Implicit Types g : gmap string (value Cell).

Lemma graph_of_senders face_features edge_features coedge_features edges :
  graph_of face_features edge_features coedge_features edges !! "senders"
  = Some (Ids edges.*1).
Proof. by vm_compute. Qed.

Lemma graph_of_receivers face_features edge_features coedge_features edges :
  graph_of face_features edge_features coedge_features edges !! "receivers"
  = Some (Ids edges.*2).
Proof. by vm_compute. Qed.

(** The only feature tables in the returned mapping are the three
    matrices that were passed in, each under its own key. *)
Lemma graph_of_features face_features edge_features coedge_features edges k m :
  graph_of face_features edge_features coedge_features edges !! k
    = Some (Features m) →
  (k = "face_features" ∧ m = face_features) ∨
  (k = "edge_features" ∧ m = edge_features) ∨
  (k = "coedge_features" ∧ m = coedge_features).
Proof.
  unfold graph_of. simpl. intros Hk.
  repeat (apply lookup_insert_Some in Hk as [[<- Hk]|[_ Hk]];
          [simplify_eq; eauto|]).
  by rewrite lookup_empty in Hk.
Qed.

(** C10 (as amended).  When [simple_edge] returns and the arrays
    [coedge_to_face], [coedge_to_mate] and [coedge_to_edge] have one entry
    per coedge feature row ([C] of them), [senders] and [receivers] are the
    two columns of [kernel_edges]: [8 * C] directed edges, the coedge and
    owning-face pairs first (each as (coedge, face) then (face, coedge)),
    then the coedge and mate-face pairs, the coedge and edge pairs, the
    [C] self-loops and the [C] edges from a coedge to its mate, every block
    in coedge order. *)
Theorem simple_edge_emission_order
    face_features edge_features coedge_features incidence_arrays g
    c2f c2m c2e :
  simple_edge face_features edge_features coedge_features incidence_arrays
    = Ok g →
  incidence_arrays !! "coedge_to_face" = Some c2f →
  incidence_arrays !! "coedge_to_mate" = Some c2m →
  incidence_arrays !! "coedge_to_edge" = Some c2e →
  length c2f = shape0 coedge_features →
  length c2m = shape0 coedge_features →
  length c2e = shape0 coedge_features →
  let edges :=
    kernel_edges (N.of_nat (shape0 face_features))
                 (N.of_nat (shape0 edge_features))
                 (shape0 coedge_features) c2f c2m c2e in
  g !! "senders" = Some (Ids edges.*1) ∧
  g !! "receivers" = Some (Ids edges.*2) ∧
  length edges.*1 = (8 * shape0 coedge_features)%nat ∧
  length edges.*2 = (8 * shape0 coedge_features)%nat.
Proof.
  intros Hrun Hf Hm He Hlf Hlm Hle edges.
  apply simple_edge_Ok in Hrun as (? & ? & ? & ? & ? & ? & _ & ->).
  simplify_eq. rewrite emitted_edges_full by done.
  rewrite graph_of_senders, graph_of_receivers, !length_fmap.
  unfold edges. by rewrite length_kernel_edges.
Qed.
End AssemblerClaims.

(** C10, as stated, fails: with two coedge feature rows and arrays for one
    coedge [simple_edge] returns 9 directed edges, not 16. *)
Lemma simple_edge_short_arrays_nine_edges :
  ∃ g senders,
    simple_edge (Sample.test_features 1) (Sample.test_features 1)
                (Sample.test_features 2) Sample.short_incidence_arrays = Ok g ∧
    shape0 (Sample.test_features 2) = 2%nat ∧
    g !! "senders" = Some (Ids senders) ∧
    length senders = 9%nat ∧
    length senders ≠ (8 * shape0 (Sample.test_features 2))%nat.
Proof.
  eexists _, _. split; [by vm_compute|]. split; [done|].
  split; [by vm_compute|]. split; [done|]. by vm_compute.
Qed.

Lemma simple_edge_emission_order_witness :
  ∃ g,
    simple_edge (Sample.test_features 2) (Sample.test_features 1)
                (Sample.test_features 2) Sample.test_incidence_arrays = Ok g ∧
    g !! "senders"
      = Some (Ids [3; 0; 4; 1; 3; 1; 4; 0; 3; 2; 4; 2; 3; 4; 3; 4]) ∧
    g !! "receivers"
      = Some (Ids [0; 3; 1; 4; 1; 3; 0; 4; 2; 3; 2; 4; 3; 4; 4; 3]).
Proof.
  eexists. split; [by vm_compute|].
  pose proof (simple_edge_emission_order
    (Sample.test_features 2) (Sample.test_features 1) (Sample.test_features 2)
    Sample.test_incidence_arrays _ [0; 1] [1; 0] [0; 0]
    ltac:(by vm_compute) ltac:(by vm_compute) ltac:(by vm_compute)
    ltac:(by vm_compute) ltac:(done) ltac:(done) ltac:(done))
    as (Hs & Hr & _).
  split; [exact Hs|exact Hr].
Defined.

Lemma at_Forall (P : N → Prop) (a : list N) c :
  Forall P a → c < N.of_nat (length a) → P (at_ a c) ∧ a !! N.to_nat c = Some (at_ a c).
Proof.
  intros Hall Hc.
  destruct (lookup_lt_is_Some_2 a (N.to_nat c)) as [x Hx]; [lia|].
  rewrite (at_lookup _ _ _ Hx). split; [|done].
  by eapply Forall_lookup_1.
Qed.

Lemma lookup_lt_N (a : list N) c x :
  a !! N.to_nat c = Some x → c < N.of_nat (length a).
Proof. intros Hx%lookup_lt_Some. lia. Qed.

Section Wiring.
Context {Cell : Type}.
Implicit Types face_features edge_features coedge_features : matrix Cell.

(** C5.  For a coedge [c] of the incidence arrays, the graph returned by
    [simple_edge] has, in the flat id space (a face keeps its id, an edge
    id is offset by [F], a coedge id by [F + E]): both directed edges
    between [c] and its owning face, both between [c] and the face of its
    mate, both between [c] and its underlying edge, the self-loop on [c]
    and the edge from [c] to its mate; the reverse edge, from the mate to
    [c], is in the graph exactly when the mate's own mate is [c]. *)
Theorem simple_edge_wiring
    face_features edge_features coedge_features
    (incidence_arrays : gmap string (list N)) (g : gmap string (value Cell))
    c2f c2m c2e (c f m e : N) :
  simple_edge face_features edge_features coedge_features incidence_arrays
    = Ok g →
  incidence_arrays !! "coedge_to_face" = Some c2f →
  incidence_arrays !! "coedge_to_mate" = Some c2m →
  incidence_arrays !! "coedge_to_edge" = Some c2e →
  c2f !! N.to_nat c = Some f →
  c2m !! N.to_nat c = Some m →
  c2e !! N.to_nat c = Some e →
  let F := N.of_nat (shape0 face_features) in
  let E := N.of_nat (shape0 edge_features) in
  let C := N.of_nat (shape0 coedge_features) in
  ∃ edges mf,
    graph_edges g = Some edges ∧
    c2f !! N.to_nat m = Some mf ∧
    (F + E + c, f) ∈ edges ∧ (f, F + E + c) ∈ edges ∧
    (F + E + c, mf) ∈ edges ∧ (mf, F + E + c) ∈ edges ∧
    (F + E + c, F + e) ∈ edges ∧ (F + e, F + E + c) ∈ edges ∧
    (F + E + c, F + E + c) ∈ edges ∧
    (F + E + c, F + E + m) ∈ edges ∧
    ((F + E + m, F + E + c) ∈ edges ↔ c2m !! N.to_nat m = Some c) ∧
    f < F ∧ mf < F ∧ e < E ∧ c < C ∧ m < C.
Proof.
  intros Hrun Hf Hm He Hcf Hcm Hce F E C.
  apply simple_edge_Ok in Hrun
    as (c2f' & c2m' & c2e' & Hf' & Hm' & He' &
        (Hlf & Hff & Hmf & Hle & Hfe & Hlm & Hfm) & ->).
  assert (c2f' = c2f) as -> by congruence.
  assert (c2m' = c2m) as -> by congruence.
  assert (c2e' = c2e) as -> by congruence.
  clear Hf' Hm' He'.
  pose proof (lookup_lt_N _ _ _ Hcf) as Hc1.
  pose proof (lookup_lt_N _ _ _ Hcm) as Hc2.
  pose proof (lookup_lt_N _ _ _ Hce) as Hc3.
  destruct (Hmf (N.to_nat c)) as (m' & mf & Hm' & Hmf' & Hmfb); [lia|].
  assert (m' = m) as -> by congruence. clear Hm'.
  assert (Hmate_face : ∀ c0, c0 < N.of_nat (length c2f) →
            at_ c2f (at_ c2m c0) < F).
  { intros c0 Hc0. destruct (Hmf (N.to_nat c0)) as (m0 & mf0 & H1 & H2 & H3); [lia|].
    by rewrite (at_lookup _ _ _ H1), (at_lookup _ _ _ H2). }
  exists (emitted_edges F E (shape0 coedge_features) c2f c2m c2e), mf.
  split; [apply graph_edges_graph_of|]. split; [done|].
  unfold emitted_edges, owning_face_block, mate_face_block,
    underlying_edge_block, self_loop_block, mate_block.
  rewrite !elem_of_app, !elem_of_pairs, !elem_of_singles.
  unfold coedge_node, edge_node, face_node.
  assert (Hat_f := at_lookup _ _ _ Hcf). assert (Hat_m := at_lookup _ _ _ Hcm).
  assert (Hat_e := at_lookup _ _ _ Hce). assert (Hat_mf := at_lookup _ _ _ Hmf').
  repeat split.
  - left. exists c. rewrite Hat_f. auto.
  - left. exists c. rewrite Hat_f. auto.
  - right; left. exists c. rewrite Hat_m, Hat_mf. auto.
  - right; left. exists c. rewrite Hat_m, Hat_mf. auto.
  - do 2 right; left. exists c. rewrite Hat_e. auto.
  - do 2 right; left. exists c. rewrite Hat_e. auto.
  - do 3 right; left. exists c. split; [lia|done].
  - do 4 right. exists c. rewrite Hat_m. auto.
  - intros [(c0 & Hc0 & Heq)|[(c0 & Hc0 & Heq)|[(c0 & Hc0 & Heq)|
            [(c0 & Hc0 & Heq)|(c0 & Hc0 & Heq)]]]].
    + destruct (at_Forall _ _ c0 Hff Hc0) as [Hb _].
      destruct Heq as [Heq|Heq]; simplify_eq; lia.
    + specialize (Hmate_face c0 Hc0).
      destruct Heq as [Heq|Heq]; simplify_eq; lia.
    + destruct (at_Forall _ _ c0 Hfe Hc0) as [Hb _].
      destruct Heq as [Heq|Heq]; simplify_eq; lia.
    + injection Heq as Heq1 Heq2.
      assert (m = c) as -> by lia. done.
    + destruct (at_Forall _ _ c0 Hfm Hc0) as [_ Hlk].
      injection Heq as Heq1 Heq2.
      assert (c0 = m) as -> by lia.
      assert (at_ c2m m = c) as <- by lia. done.
  - intros Hmc. do 4 right. exists m. split.
    + by eapply lookup_lt_N.
    + by rewrite (at_lookup _ _ _ Hmc).
  - by eapply Forall_lookup_1 in Hff.
  - done.
  - by eapply Forall_lookup_1 in Hfe.
  - unfold C. lia.
  - by eapply Forall_lookup_1 in Hfm.
Qed.
End Wiring.

Lemma simple_edge_wiring_witness :
  ∃ g,
    simple_edge (Sample.test_features 2) (Sample.test_features 1)
                (Sample.test_features 2) Sample.test_incidence_arrays = Ok g ∧
    ∃ edges mf,
      graph_edges g = Some edges ∧
      [0; 1] !! N.to_nat 1 = Some mf ∧
      (3, 0) ∈ edges ∧ (0, 3) ∈ edges ∧
      (3, mf) ∈ edges ∧ (mf, 3) ∈ edges ∧
      (3, 2) ∈ edges ∧ (2, 3) ∈ edges ∧
      (3, 3) ∈ edges ∧
      (3, 4) ∈ edges ∧
      ((4, 3) ∈ edges ↔ [1; 0] !! N.to_nat 1 = Some 0) ∧
      0 < 2 ∧ mf < 2 ∧ 0 < 1 ∧ 0 < 2 ∧ 1 < 2.
Proof.
  eexists. split; [by vm_compute|].
  exact (simple_edge_wiring
    (Sample.test_features 2) (Sample.test_features 1) (Sample.test_features 2)
    Sample.test_incidence_arrays _ [0; 1] [1; 0] [0; 0] 0 0 1 0
    ltac:(by vm_compute) ltac:(by vm_compute) ltac:(by vm_compute)
    ltac:(by vm_compute) ltac:(done) ltac:(done) ltac:(done)).
Defined.

(** ** Which exceptions the assembler raises *)

Lemma for_each_Raise {S A} (P : exn → Prop) (body : S → A → result S) xs s e :
  (∀ s x e, body s x = Raise e → P e) →
  for_each body xs s = Raise e → P e.
Proof.
  intros Hbody. revert s.
  induction xs as [|x xs IH]; intros s Hrun; simpl in Hrun; [done|].
  apply bind_Raise in Hrun as [Hx|(s1 & _ & Hrun)]; eauto.
Qed.

Lemma getitem_Raise a i e : getitem a i = Raise e → e = IndexError.
Proof. unfold getitem. destruct (a !! N.to_nat i); congruence. Qed.

(** Closes a goal [e = IndexError] from a hypothesis that a chain of
    [getitem]s raised [e]. *)
Ltac index_error H :=
  repeat match type of H with
  | mbind _ (getitem ?a ?i) = Raise _ =>
      let Hg := fresh "Hg" in
      destruct (getitem a i) eqn:Hg; simpl in H;
      [|injection H as <-; by eapply getitem_Raise]
  | Ok _ = Raise _ => discriminate H
  end.

Lemma _f_Raise c2f c2n f2n edges e :
  _f c2f c2n f2n edges = Raise e → e = IndexError.
Proof.
  apply (for_each_Raise (λ e, e = IndexError)). intros s [i f] e' Hbody. simpl in Hbody.
  index_error Hbody.
Qed.

Lemma _mf_Raise c2m c2f c2n f2n edges e :
  _mf c2m c2f c2n f2n edges = Raise e → e = IndexError.
Proof.
  apply (for_each_Raise (λ e, e = IndexError)). intros s [i f] e' Hbody. simpl in Hbody.
  index_error Hbody.
Qed.

Lemma _e_Raise c2e c2n e2n edges e :
  _e c2e c2n e2n edges = Raise e → e = IndexError.
Proof.
  apply (for_each_Raise (λ e, e = IndexError)). intros s [i f] e' Hbody. simpl in Hbody.
  index_error Hbody.
Qed.

Lemma _m_Raise c2m c2n edges e :
  _m c2m c2n edges = Raise e → e = IndexError.
Proof.
  apply (for_each_Raise (λ e, e = IndexError)). intros s [i f] e' Hbody. simpl in Hbody.
  index_error Hbody.
Qed.

Lemma getattr_Raise (o : gmap string (list N)) name e :
  getattr o name = Raise e → e = AttributeError.
Proof. unfold getattr. destruct (o !! name); congruence. Qed.

(** [simple_edge] raises nothing but [AttributeError] and [IndexError]. *)
Lemma simple_edge_Raise {Cell} (ff ef cf : matrix Cell)
    (incidence_arrays : gmap string (list N)) e :
  simple_edge ff ef cf incidence_arrays = Raise e →
  e = IndexError ∨ e = AttributeError.
Proof.
  unfold simple_edge. intros Hrun.
  repeat match type of Hrun with
  | mbind _ _ = Raise _ =>
      apply bind_Raise in Hrun as [Hrun|(? & _ & Hrun)]
  end;
  eauto using getattr_Raise, _f_Raise, _mf_Raise, _e_Raise, _m_Raise.
  - by rewrite _i_Ok in Hrun.
  - by rewrite _create_graph_Ok in Hrun.
Qed.

(** With the three attributes in place only [IndexError] is left. *)
Lemma simple_edge_Raise_index {Cell} (ff ef cf : matrix Cell)
    (incidence_arrays : gmap string (list N)) c2f c2m c2e e :
  incidence_arrays !! "coedge_to_face" = Some c2f →
  incidence_arrays !! "coedge_to_mate" = Some c2m →
  incidence_arrays !! "coedge_to_edge" = Some c2e →
  simple_edge ff ef cf incidence_arrays = Raise e →
  e = IndexError.
Proof.
  intros Hf%getattr_Ok Hm%getattr_Ok He%getattr_Ok.
  unfold simple_edge. rewrite Hf, Hm, He. simpl. intros Hrun.
  repeat match type of Hrun with
  | mbind _ _ = Raise _ =>
      apply bind_Raise in Hrun as [Hrun|(? & _ & Hrun)]
  end;
  eauto using _f_Raise, _mf_Raise, _e_Raise, _m_Raise.
  - by rewrite _i_Ok in Hrun.
  - by rewrite _create_graph_Ok in Hrun.
Qed.

(** ** Ids of the emitted edges *)

Lemma emitted_edges_in_range (F E C : nat) c2f c2m c2e :
  kernel_accepts F E C c2f c2m c2e →
  Forall (λ p : N * N, p.1 < N.of_nat (F + E + C) ∧ p.2 < N.of_nat (F + E + C))
         (emitted_edges (N.of_nat F) (N.of_nat E) C c2f c2m c2e).
Proof.
  intros (Hlf & Hff & Hmf & Hle & Hfe & Hlm & Hfm).
  apply Forall_forall. intros p.
  unfold emitted_edges, owning_face_block, mate_face_block,
    underlying_edge_block, self_loop_block, mate_block.
  rewrite !elem_of_app, !elem_of_pairs, !elem_of_singles.
  unfold coedge_node, edge_node, face_node.
  intros [(c & Hc & Hp)|[(c & Hc & Hp)|[(c & Hc & Hp)|
          [(c & Hc & Hp)|(c & Hc & Hp)]]]].
  - destruct (at_Forall _ _ c Hff Hc) as [Hb _].
    destruct Hp as [-> | ->]; simpl; lia.
  - destruct (Hmf (N.to_nat c)) as (m & mf & H1 & H2 & H3); [lia|].
    rewrite (at_lookup _ _ _ H1), (at_lookup _ _ _ H2) in Hp.
    destruct Hp as [-> | ->]; simpl; lia.
  - destruct (at_Forall _ _ c Hfe Hc) as [Hb _].
    destruct Hp as [-> | ->]; simpl; lia.
  - subst p. simpl. lia.
  - destruct (at_Forall _ _ c Hfm Hc) as [Hb _].
    subst p. simpl. lia.
Qed.

(** ** More on the assembler *)

(** X1.  [simple_edge] never returns a graph for an [IncidenceArrays] named
    tuple: the tuple declares [next], [mate], [coedge_to_face] and
    [coedge_to_edge], the kernel reads [coedge_to_mate], so the call raises
    [AttributeError], unless the owning-face loop has raised [IndexError]
    before. *)
Theorem simple_edge_rejects_named_tuple {Cell}
    (face_features edge_features coedge_features : matrix Cell)
    (ia : IncidenceArrays) :
  simple_edge face_features edge_features coedge_features (attributes ia)
    = Raise AttributeError ∨
  simple_edge face_features edge_features coedge_features (attributes ia)
    = Raise IndexError.
Proof.
  destruct (simple_edge face_features edge_features coedge_features
              (attributes ia)) as [g|e] eqn:Hrun.
  - apply simple_edge_Ok in Hrun as (? & c2m & ? & _ & Hm & _).
    by vm_compute in Hm.
  - apply simple_edge_Raise in Hrun as [-> | ->]; auto.
Qed.

(** X2.  Whenever [simple_edge] returns, [senders] and [receivers] have the
    same length, every id in them is below [F + E + C], and the three
    feature matrices are in the mapping unchanged, each under its own key;
    there is no other feature table in it. *)
Theorem simple_edge_output {Cell}
    (face_features edge_features coedge_features : matrix Cell)
    (incidence_arrays : gmap string (list N)) (g : gmap string (value Cell)) :
  simple_edge face_features edge_features coedge_features incidence_arrays
    = Ok g →
  let nodes := N.of_nat (shape0 face_features + shape0 edge_features
                         + shape0 coedge_features) in
  (∃ senders receivers,
     g !! "senders" = Some (Ids senders) ∧
     g !! "receivers" = Some (Ids receivers) ∧
     length senders = length receivers ∧
     Forall (λ v, v < nodes) senders ∧
     Forall (λ v, v < nodes) receivers) ∧
  g !! "face_features" = Some (Features face_features) ∧
  g !! "edge_features" = Some (Features edge_features) ∧
  g !! "coedge_features" = Some (Features coedge_features) ∧
  (∀ k m, g !! k = Some (Features m) →
     k = "face_features" ∨ k = "edge_features" ∨ k = "coedge_features").
Proof.
  intros Hrun nodes.
  apply simple_edge_Ok in Hrun as (c2f & c2m & c2e & _ & _ & _ & Hacc & ->).
  apply emitted_edges_in_range in Hacc.
  split; [|split; [by vm_compute|split; [by vm_compute|split; [by vm_compute|]]]].
  - eexists _, _. split; [apply graph_of_senders|].
    split; [apply graph_of_receivers|].
    rewrite !length_fmap, !Forall_fmap. split; [done|].
    split; eapply Forall_impl; try exact Hacc; by intros ? [? ?].
  - intros k m Hk.
    apply graph_of_features in Hk as [[-> _]|[[-> _]|[-> _]]]; auto.
Qed.

(** X3.  With the three arrays in place and of one length [L], the call
    raises [IndexError] when the arrays are longer than the coedge feature
    matrix, and when they are not empty and the face, the edge or the coedge
    feature matrix has no row. *)
Theorem simple_edge_shape_mismatch {Cell}
    (face_features edge_features coedge_features : matrix Cell)
    (incidence_arrays : gmap string (list N)) c2f c2m c2e (L : nat) :
  incidence_arrays !! "coedge_to_face" = Some c2f →
  incidence_arrays !! "coedge_to_mate" = Some c2m →
  incidence_arrays !! "coedge_to_edge" = Some c2e →
  length c2f = L → length c2m = L → length c2e = L →
  (shape0 coedge_features < L)%nat ∨
  ((0 < L)%nat ∧ (shape0 face_features = 0%nat ∨ shape0 edge_features = 0%nat
                  ∨ shape0 coedge_features = 0%nat)) →
  simple_edge face_features edge_features coedge_features incidence_arrays
    = Raise IndexError.
Proof.
  intros Hf Hm He Hlf Hlm Hle Hbad.
  destruct (simple_edge face_features edge_features coedge_features
              incidence_arrays) as [g|e] eqn:Hrun.
  - exfalso.
    apply simple_edge_Ok in Hrun
      as (c2f' & c2m' & c2e' & Hf' & Hm' & He' &
          (Hlen & Hff & _ & _ & Hfe & _ & _) & _).
    assert (c2f' = c2f) as -> by congruence.
    assert (c2e' = c2e) as -> by congruence.
    destruct Hbad as [?|[Hpos Hempty]]; [lia|].
    destruct c2f as [|f c2f]; [simpl in *; lia|].
    destruct c2e as [|e c2e]; [simpl in *; lia|].
    apply Forall_cons in Hff as [Hf0 _]. apply Forall_cons in Hfe as [He0 _].
    simpl in *. lia.
  - f_equal. by eapply simple_edge_Raise_index.
Qed.

Lemma simple_edge_shape_mismatch_witness :
  simple_edge (Sample.test_features 2) (Sample.test_features 1)
              (Sample.test_features 1) Sample.test_incidence_arrays
    = Raise IndexError.
Proof.
  apply (simple_edge_shape_mismatch
    (Sample.test_features 2) (Sample.test_features 1) (Sample.test_features 1)
    Sample.test_incidence_arrays [0; 1] [1; 0] [0; 0] 2);
    [by vm_compute|by vm_compute|by vm_compute|done|done|done|].
  left. vm_compute. lia.
Defined.

(** X4.  With the three arrays in place, no longer than the coedge feature
    matrix, their entries below the row counts they index and the mate of
    every coedge of [coedge_to_face] itself a coedge of [coedge_to_face],
    [simple_edge] returns, and with [4 * Lf + 2 * Le + C + Lm] directed
    edges ([Lf], [Le], [Lm] the lengths of [coedge_to_face],
    [coedge_to_edge] and [coedge_to_mate], [C] the coedge rows). *)
Theorem simple_edge_accepts {Cell}
    (face_features edge_features coedge_features : matrix Cell)
    (incidence_arrays : gmap string (list N)) c2f c2m c2e :
  incidence_arrays !! "coedge_to_face" = Some c2f →
  incidence_arrays !! "coedge_to_mate" = Some c2m →
  incidence_arrays !! "coedge_to_edge" = Some c2e →
  (length c2f ≤ shape0 coedge_features)%nat →
  (length c2e ≤ shape0 coedge_features)%nat →
  (length c2m ≤ shape0 coedge_features)%nat →
  (length c2f ≤ length c2m)%nat →
  Forall (λ f, f < N.of_nat (shape0 face_features)) c2f →
  Forall (λ e, e < N.of_nat (shape0 edge_features)) c2e →
  Forall (λ m, m < N.of_nat (shape0 coedge_features)) c2m →
  (∀ i m, (i < length c2f)%nat → c2m !! i = Some m →
          m < N.of_nat (length c2f)) →
  ∃ g senders receivers,
    simple_edge face_features edge_features coedge_features incidence_arrays
      = Ok g ∧
    g !! "senders" = Some (Ids senders) ∧
    g !! "receivers" = Some (Ids receivers) ∧
    length senders
      = (4 * length c2f + 2 * length c2e + shape0 coedge_features
         + length c2m)%nat ∧
    length receivers = length senders.
Proof.
  intros Hf Hm He Hlf Hle Hlm Hfm Hbf Hbe Hbm Hmate.
  eexists _, _, _. split; [|split; [apply graph_of_senders|
    split; [apply graph_of_receivers|]]].
  - apply simple_edge_Ok. exists c2f, c2m, c2e.
    split; [done|]. split; [done|]. split; [done|]. split; [|done].
    unfold kernel_accepts. repeat (split; [done|]).
    split; [|done]. intros i Hi.
    destruct (lookup_lt_is_Some_2 c2m i) as [m Hmi]; [lia|].
    specialize (Hmate i m Hi Hmi).
    destruct (lookup_lt_is_Some_2 c2f (N.to_nat m)) as [mf Hmf]; [lia|].
    exists m, mf. split; [done|]. split; [done|].
    by eapply Forall_lookup_1 in Hbf.
  - rewrite !length_fmap. split; [|done].
    unfold emitted_edges, owning_face_block, mate_face_block,
      underlying_edge_block, self_loop_block, mate_block.
    rewrite !length_app, !length_bind_pairs, !length_fmap, !length_arange. lia.
Qed.

Lemma simple_edge_accepts_witness :
  ∃ g senders receivers,
    simple_edge (Sample.test_features 1) (Sample.test_features 1)
                (Sample.test_features 2) Sample.short_incidence_arrays = Ok g ∧
    g !! "senders" = Some (Ids senders) ∧
    g !! "receivers" = Some (Ids receivers) ∧
    length senders = (4 * 1 + 2 * 1 + 2 + 1)%nat ∧
    length receivers = length senders.
Proof.
  apply (simple_edge_accepts
    (Sample.test_features 1) (Sample.test_features 1) (Sample.test_features 2)
    Sample.short_incidence_arrays [0] [0] [0]);
    first [ by vm_compute
          | simpl; lia
          | repeat constructor; by vm_compute
          | intros [|i] m Hi Hm; simpl in *; [by simplify_eq|lia] ].
Defined.

(** ** The block table of [features_from_body] *)

Lemma zip_with_replicate_r {A B C} (f : A → B → C) (l : list A) (x : B) :
  zip_with f l (replicate (length l) x) = (λ y, f y x) <$> l.
Proof. induction l as [|y l IH]; simpl; [done|]. by rewrite IH. Qed.

Lemma zip_with_replicate_l {A B C} (f : A → B → C) (x : A) (l : list B) :
  zip_with f (replicate (length l) x) l = f x <$> l.
Proof. induction l as [|y l IH]; simpl; [done|]. by rewrite IH. Qed.

(** X5.  The table has the face rows first, then the edge rows, then the
    coedge rows: [F + E + C] rows of width [wf + we + wc], a face row
    followed by [we + wc] zeros, an edge row between [wf] and [wc] zeros, a
    coedge row after [wf + we] zeros. *)
Theorem features_block_layout {Cell} (zero : Cell)
    (face_features edge_features coedge_features : matrix Cell) :
  well_shaped face_features → well_shaped edge_features →
  well_shaped coedge_features →
  let table := features_block zero face_features edge_features coedge_features in
  let wf := shape1 face_features in
  let we := shape1 edge_features in
  let wc := shape1 coedge_features in
  shape0 table
    = (shape0 face_features + shape0 edge_features + shape0 coedge_features)%nat ∧
  shape1 table = (wf + we + wc)%nat ∧
  well_shaped table ∧
  (∀ i row, rows face_features !! i = Some row →
     rows table !! i = Some (row ++ replicate (we + wc) zero)) ∧
  (∀ i row, rows edge_features !! i = Some row →
     rows table !! (shape0 face_features + i)%nat
       = Some (replicate wf zero ++ row ++ replicate wc zero)) ∧
  (∀ i row, rows coedge_features !! i = Some row →
     rows table !! (shape0 face_features + shape0 edge_features + i)%nat
       = Some (replicate (wf + we) zero ++ row)).
Proof.
  intros Hwf Hwe Hwc table wf we wc.
  assert (Hrows : rows table =
    ((λ r, r ++ replicate (we + wc) zero) <$> rows face_features) ++
    ((λ r, replicate wf zero ++ r ++ replicate wc zero) <$> rows edge_features) ++
    ((λ r, replicate (wf + we) zero ++ r) <$> rows coedge_features)).
  { unfold table, features_block, vstack, hstack, zeros, shape0. simpl.
    rewrite zip_with_replicate_r, !zip_with_replicate_l.
    rewrite <-(length_fmap (app (replicate (shape1 face_features) zero))
                 (rows edge_features)), zip_with_replicate_r.
    rewrite <-list_fmap_compose. f_equal. f_equal.
    apply list_fmap_ext. intros _ r _. simpl. by rewrite <-app_assoc. }
  split; [|split; [|split; [|split; [|split]]]].
  - unfold shape0. rewrite Hrows, !length_app, !length_fmap. lia.
  - unfold table, features_block, vstack, hstack, zeros. simpl. lia.
  - unfold well_shaped. rewrite Hrows.
    replace (shape1 table) with (wf + we + wc)%nat
      by (unfold table, features_block, vstack, hstack, zeros; simpl; lia).
    rewrite !Forall_app, !Forall_fmap. unfold well_shaped in *.
    repeat split; (eapply Forall_impl; [eassumption|]); intros r Hr; simpl;
      rewrite ?length_app, ?length_replicate, Hr; unfold wf, we, wc; lia.
  - intros i row Hi. rewrite Hrows, lookup_app_l.
    + by rewrite list_lookup_fmap, Hi.
    + rewrite length_fmap. by eapply lookup_lt_Some.
  - intros i row Hi. rewrite Hrows, lookup_app_r; rewrite length_fmap.
    + unfold shape0. replace (_ + i - _)%nat with i by lia.
      rewrite lookup_app_l.
      * by rewrite list_lookup_fmap, Hi.
      * rewrite length_fmap. by eapply lookup_lt_Some.
    + unfold shape0. lia.
  - intros i row Hi. rewrite Hrows, lookup_app_r; rewrite length_fmap.
    + rewrite lookup_app_r; rewrite length_fmap.
      * unfold shape0. replace (_ + _ + i - _ - _)%nat with i by lia.
        by rewrite list_lookup_fmap, Hi.
      * unfold shape0. lia.
    + unfold shape0. lia.
Qed.

Lemma features_block_layout_witness :
  shape0 (features_block 0 (Matrix 2 [[7; 8]]) (Matrix 1 [[5]; [6]])
                         (Matrix 1 [[9]])) = 4%nat ∧
  rows (features_block 0 (Matrix 2 [[7; 8]]) (Matrix 1 [[5]; [6]])
                       (Matrix 1 [[9]])) !! 2%nat = Some [0; 0; 6; 0].
Proof.
  pose proof (features_block_layout 0
    (Matrix 2 [[7; 8]]) (Matrix 1 [[5]; [6]]) (Matrix 1 [[9]])
    ltac:(repeat constructor) ltac:(repeat constructor)
    ltac:(repeat constructor)) as (H0 & _ & _ & _ & Hedge & _).
  split; [exact H0|]. exact (Hedge 1%nat [6] eq_refl).
Defined.

(** ** The incidence builder: array lengths and the validation gate *)

Lemma setitem_length a i v a' : setitem a i v = Ok a' → length a' = length a.
Proof. intros [_ ->]%setitem_Ok. by rewrite length_insert. Qed.

Lemma setitem_opt_length a i v a' :
  setitem_opt a i v = Ok a' → length a' = length a.
Proof.
  unfold setitem_opt. destruct v as [v|]; [|done]. destruct i as [i|].
  - apply setitem_length.
  - intros [= <-]. by rewrite length_replicate.
Qed.

Section BuilderLengths.
Context {Coedge Face : Type} `{OrientedEdge Coedge}.
Variable body : Compound Coedge Face.
Variable em : EntityMapper Coedge Face.

Lemma visit_coedge_lengths s x s' :
  visit_coedge em s x = Ok s' →
  length (next_ s') = length (next_ s) ∧
  length (mate_ s') = length (mate_ s) ∧
  length (coedge_to_edge_ s') = length (coedge_to_edge_ s).
Proof.
  unfold visit_coedge. intros Hrun. inv_bind Hrun.
  injection Hrun as <-. simpl.
  apply setitem_length in Hstep2. apply setitem_length in Hstep5.
  apply setitem_length in Hstep6.
  split; [|split; [done|congruence]].
  destruct (first_coedge_index s).
  - by eapply setitem_opt_length.
  - by injection Hstep7 as <-.
Qed.

Lemma link_wire_lengths nxt mt c2e w nxt' mt' c2e' :
  link_wire em (nxt, mt, c2e) w = Ok (nxt', mt', c2e') →
  length nxt' = length nxt ∧ length mt' = length mt ∧ length c2e' = length c2e.
Proof.
  unfold link_wire. intros Hrun. inv_bind Hrun.
  injection Hrun as <- <- <-.
  apply setitem_opt_length in Hstep0.
  apply (for_each_invariant (λ s,
    length (next_ s) = length nxt ∧ length (mate_ s) = length mt ∧
    length (coedge_to_edge_ s) = length c2e)) in Hstep.
  - destruct Hstep as (? & ? & ?). split; [congruence|done].
  - intros s x s' _ (? & ? & ?) Hx.
    apply visit_coedge_lengths in Hx as (? & ? & ?).
    split; [congruence|split; congruence].
  - done.
Qed.

Lemma link_wires_lengths ws nxt mt c2e nxt' mt' c2e' :
  for_each (link_wire em) ws (nxt, mt, c2e) = Ok (nxt', mt', c2e') →
  length nxt' = length nxt ∧ length mt' = length mt ∧ length c2e' = length c2e.
Proof.
  intros Hrun.
  apply (for_each_invariant (λ '(n, m, e),
    length n = length nxt ∧ length m = length mt ∧ length e = length c2e))
    in Hrun; [done| |done].
  intros [[n m] e] w [[n' m'] e'] _ (? & ? & ?) Hw.
  apply link_wire_lengths in Hw as (? & ? & ?).
  split; [congruence|split; congruence].
Qed.

Lemma assign_faces_length c2f c2f' :
  assign_faces body em c2f = Ok c2f' → length c2f' = length c2f.
Proof.
  unfold assign_faces. intros Hrun.
  apply (for_each_invariant (λ a, length a = length c2f)) in Hrun; [done| |done].
  intros a face a' _ Ha Hface. inv_bind Hface.
  apply (for_each_invariant (λ a, length a = length c2f)) in Hface; [done| |done].
  intros b w b' _ Hb Hw.
  apply (for_each_invariant (λ a, length a = length c2f)) in Hw; [done| |done].
  intros d x d' _ Hd Hx. inv_bind Hx.
  apply setitem_length in Hx. congruence.
Qed.

Lemma length_initializer : length (initializer em) = N.to_nat (coedges_num em).
Proof. unfold initializer. by rewrite length_replicate. Qed.

Lemma fill_lengths ia :
  fill_incidence_arrays body em = Ok ia →
  length (next ia) = N.to_nat (coedges_num em) ∧
  length (mate ia) = N.to_nat (coedges_num em) ∧
  length (coedge_to_face ia) = N.to_nat (coedges_num em) ∧
  length (coedge_to_edge ia) = N.to_nat (coedges_num em).
Proof.
  unfold fill_incidence_arrays. intros Hrun.
  apply bind_Ok in Hrun as ([[nxt mt] c2e] & Hwires & Hrun).
  inv_bind Hrun. injection Hrun as <-. simpl.
  apply link_wires_lengths in Hwires as (? & ? & ?).
  apply assign_faces_length in Hstep.
  rewrite length_initializer in *. done.
Qed.

Lemma validate_Ok ia u :
  validate em ia = Ok u ↔
  Forall (λ v, v < coedges_num em) (next ia) ∧
  Forall (λ v, v < coedges_num em) (mate ia) ∧
  Forall (λ v, v < coedges_num em) (coedge_to_face ia) ∧
  Forall (λ v, v < coedges_num em) (coedge_to_edge ia).
Proof.
  unfold validate. repeat setoid_rewrite bind_Ok.
  repeat setoid_rewrite py_assert_Ok. repeat setoid_rewrite all_lt_Forall.
  destruct u. split.
  - intros (_ & ? & _ & ? & _ & ? & ?). done.
  - intros (? & ? & ? & ?). exists (); split; [done|].
    exists (); split; [done|]. exists (); done.
Qed.

Lemma build_Ok ia :
  build_incidence_arrays body em = Ok ia ↔
  fill_incidence_arrays body em = Ok ia ∧ validate em ia = Ok ().
Proof.
  unfold build_incidence_arrays. rewrite bind_Ok. split.
  - intros (ia' & Hfill & Hrun). inv_bind Hrun. injection Hrun as <-.
    by destruct a.
  - intros [Hfill Hval]. exists ia. split; [done|]. by rewrite Hval.
Qed.
End BuilderLengths.

(** X6.  When [build_incidence_arrays] returns, each of the four arrays has
    one entry per oriented edge of the entity mapper and every entry of
    every array is below that count: the initial value is in none of them. *)
Theorem build_incidence_arrays_gate {Coedge Face : Type} `{OrientedEdge Coedge}
    (body : Compound Coedge Face) (em : EntityMapper Coedge Face)
    (ia : IncidenceArrays) :
  build_incidence_arrays body em = Ok ia →
  let n := oriented_edge_map_len em in
  length (next ia) = N.to_nat n ∧ Forall (λ v, v < n) (next ia) ∧
  length (mate ia) = N.to_nat n ∧ Forall (λ v, v < n) (mate ia) ∧
  length (coedge_to_face ia) = N.to_nat n ∧
  Forall (λ v, v < n) (coedge_to_face ia) ∧
  length (coedge_to_edge ia) = N.to_nat n ∧
  Forall (λ v, v < n) (coedge_to_edge ia).
Proof.
  intros [Hfill Hval]%build_Ok n.
  apply fill_lengths in Hfill as (? & ? & ? & ?).
  apply validate_Ok in Hval as (? & ? & ? & ?). done.
Qed.

Import Sample.

Lemma build_incidence_arrays_gate_witness :
  ∃ ia,
    build_incidence_arrays Sample.two_faces_body Sample.two_faces_mapper = Ok ia ∧
    length (next ia) = 4%nat ∧ Forall (λ v, v < 4) (next ia) ∧
    length (mate ia) = 4%nat ∧ Forall (λ v, v < 4) (mate ia) ∧
    length (coedge_to_face ia) = 4%nat ∧ Forall (λ v, v < 4) (coedge_to_face ia) ∧
    length (coedge_to_edge ia) = 4%nat ∧ Forall (λ v, v < 4) (coedge_to_edge ia).
Proof.
  eexists. split; [by vm_compute|].
  exact (build_incidence_arrays_gate Sample.two_faces_body
           Sample.two_faces_mapper _ ltac:(by vm_compute)).
Defined.

Lemma py_assert_Raise cond msg e :
  py_assert cond msg = Raise e → e = AssertionError msg ∧ cond = false.
Proof. destruct cond; simpl; [done|]. by intros [= <-]. Qed.

(** X7.  When the arrays are filled without an exception and one of them
    holds an entry that is not below the number of oriented edges (the
    initial value among them), [build_incidence_arrays] raises
    [AssertionError] with the message of the first such array, in the order
    [next], [mate], [coedge_to_face], [coedge_to_edge], and returns no
    arrays. *)
Theorem build_incidence_arrays_assertion {Coedge Face : Type}
    `{OrientedEdge Coedge}
    (body : Compound Coedge Face) (em : EntityMapper Coedge Face)
    (ia : IncidenceArrays) :
  fill_incidence_arrays body em = Ok ia →
  ¬ (Forall (λ v, v < coedges_num em) (next ia) ∧
     Forall (λ v, v < coedges_num em) (mate ia) ∧
     Forall (λ v, v < coedges_num em) (coedge_to_face ia) ∧
     Forall (λ v, v < coedges_num em) (coedge_to_edge ia)) →
  build_incidence_arrays body em =
    Raise (AssertionError
      (if all_lt (next ia) (coedges_num em) then
         if all_lt (mate ia) (coedges_num em) then
           if all_lt (coedge_to_face ia) (coedges_num em) then
             "next contains coedge without relation to edge"
           else "coedge_to_face contains coedge without relation to face"
         else "mate contains a coedge without mate"
       else "next contains a coedge without next")).
Proof.
  intros Hfill Hbad. unfold build_incidence_arrays. rewrite Hfill. simpl.
  unfold validate.
  destruct (all_lt (next ia) (coedges_num em)) eqn:H1; simpl; [|done].
  destruct (all_lt (mate ia) (coedges_num em)) eqn:H2; simpl; [|done].
  destruct (all_lt (coedge_to_face ia) (coedges_num em)) eqn:H3; simpl; [|done].
  destruct (all_lt (coedge_to_edge ia) (coedges_num em)) eqn:H4; simpl; [|done].
  exfalso. apply Hbad. by rewrite <-!all_lt_Forall.
Qed.

Lemma build_incidence_arrays_assertion_witness :
  build_incidence_arrays
    (Sample.body_of [ [ [(0, false)] ] ])
    (Sample.mapper [(0, false); (1, false)] 2 1)
  = Raise (AssertionError "next contains a coedge without next").
Proof.
  refine (build_incidence_arrays_assertion
    (Sample.body_of [ [ [(0, false)] ] ])
    (Sample.mapper [(0, false); (1, false)] 2 1)
    {| next := [0; 2]; mate := [0; 2];
       coedge_to_face := [0; 2]; coedge_to_edge := [0; 2] |}
    ltac:(by vm_compute) _).
  intros (Hn & _). apply Forall_cons in Hn as [_ Hn].
  apply Forall_cons in Hn as [Hn _]. vm_compute in Hn. done.
Defined.

(** ** The incidence builder: where mates and edges come from *)

Section BuilderProvenance.
Context {Coedge Face : Type} `{OrientedEdge Coedge}.
Variable body : Compound Coedge Face.
Variable em : EntityMapper Coedge Face.

Lemma provenance_initializer : provenance em (initializer em) (initializer em).
Proof.
  unfold provenance. rewrite length_initializer.
  split; [done|]. split; [done|].
  split; intros i v Hv; left; unfold initializer in Hv;
    by apply lookup_replicate in Hv as [-> _].
Qed.

Lemma visit_coedge_provenance s x s' :
  provenance em (mate_ s) (coedge_to_edge_ s) →
  visit_coedge em s x = Ok s' →
  provenance em (mate_ s') (coedge_to_edge_ s').
Proof.
  intros (Hlm & Hle & Hmate & Hedge). unfold visit_coedge. intros Hrun.
  inv_bind Hrun. injection Hrun as <-. simpl.
  rename a into ci, a0 into e, a1 into mi, a2 into mate', a3 into e',
    a5 into c2e', a6 into c2e''.
  apply key_lookup_Ok in Hstep, Hstep0, Hstep3.
  apply setitem_Ok in Hstep2 as [Hci ->].
  apply py_assert_Ok, N.eqb_eq in Hstep4 as <-.
  apply setitem_Ok in Hstep5 as [Hci' ->].
  apply setitem_Ok in Hstep6 as [Hmi ->].
  rewrite length_insert in Hmi.
  assert (Hwritten : mate_written em (N.to_nat ci) (uint32 mi)).
  { exists x, ci, e. repeat (split; [done|]).
    destruct (oriented_edge_exists em (reversed_edge x)).
    - apply key_lookup_Ok in Hstep1. exists mi.
      split; [done|]. split; [lia|done].
    - by injection Hstep1 as <-. }
  assert (Hmate_edge : edge_written em (N.to_nat mi) (uint32 e)).
  { destruct (oriented_edge_exists em (reversed_edge x)).
    - apply key_lookup_Ok in Hstep1. by exists (reversed_edge x), mi, e.
    - injection Hstep1 as <-. by exists x, ci, e. }
  unfold provenance. rewrite !length_insert.
  split; [done|]. split; [done|]. split.
  - intros i v [(<- & <- & _)|[_ Hold]]%list_lookup_insert_Some; eauto.
  - intros i v [(<- & <- & _)|[_ Hv]]%list_lookup_insert_Some; [by right|].
    apply list_lookup_insert_Some in Hv as [(<- & <- & _)|[_ Hold]]; eauto.
    right. by exists x, ci, e.
Qed.

Lemma link_wire_provenance nxt mt c2e w nxt' mt' c2e' :
  provenance em mt c2e →
  link_wire em (nxt, mt, c2e) w = Ok (nxt', mt', c2e') →
  provenance em mt' c2e'.
Proof.
  intros Hprov. unfold link_wire. intros Hrun. inv_bind Hrun.
  injection Hrun as _ <- <-.
  apply (for_each_invariant
    (λ s, provenance em (mate_ s) (coedge_to_edge_ s))) in Hstep; [done| |done].
  intros s x s' _. apply visit_coedge_provenance.
Qed.

Lemma fill_provenance ia :
  fill_incidence_arrays body em = Ok ia →
  provenance em (mate ia) (coedge_to_edge ia).
Proof.
  unfold fill_incidence_arrays. intros Hrun.
  apply bind_Ok in Hrun as ([[nxt mt] c2e] & Hwires & Hrun).
  inv_bind Hrun. injection Hrun as <-. simpl.
  apply (for_each_invariant (λ '(_, m, e), provenance em m e)) in Hwires;
    [done| |apply provenance_initializer].
  intros [[n m] e] w [[n' m'] e'] _. apply link_wire_provenance.
Qed.
End BuilderProvenance.

Lemma for_each_Ok_elem {S A} (body : S → A → result S) xs s s' x :
  for_each body xs s = Ok s' → x ∈ xs → ∃ s1 s2, body s1 x = Ok s2.
Proof.
  revert s. induction xs as [|y xs IH]; intros s Hrun Hx.
  - by apply elem_of_nil in Hx.
  - simpl in Hrun. apply bind_Ok in Hrun as (s1 & Hy & Hrun).
    apply elem_of_cons in Hx as [->|Hx]; eauto.
Qed.

Section BuilderMates.
Context {Coedge Face : Type} `{OrientedEdge Coedge}.
Variable body : Compound Coedge Face.
Variable em : EntityMapper Coedge Face.

(** The array entries are 32 bits wide. *)
Hypothesis Hfit : coedges_num em < 2 ^ 32.
(** The entity mapper gives two different coedges two different ids. *)
Hypothesis Hinj : ∀ x y i,
  oriented_edge_index em x = Some i → oriented_edge_index em y = Some i → x = y.

Lemma mate_entry_written ia (c : nat) m :
  build_incidence_arrays body em = Ok ia →
  mate ia !! c = Some m →
  m < coedges_num em ∧ mate_written em c m.
Proof.
  intros [Hfill Hval]%build_Ok Hm.
  apply fill_provenance in Hfill as (_ & _ & Hmate & _).
  apply validate_Ok in Hval as (_ & Hlt & _ & _).
  eapply Forall_lookup_1 in Hlt; [|done]. split; [done|].
  destruct (Hmate c m Hm) as [->|?]; [|done].
  rewrite uint32_small in Hlt by done. lia.
Qed.

Lemma edge_entry_written ia (c : nat) :
  build_incidence_arrays body em = Ok ia →
  (c < N.to_nat (coedges_num em))%nat →
  ∃ v, coedge_to_edge ia !! c = Some v ∧ edge_written em c v.
Proof.
  intros [Hfill Hval]%build_Ok Hc.
  apply fill_provenance in Hfill as (_ & Hlen & _ & Hedge).
  apply validate_Ok in Hval as (_ & _ & _ & Hlt).
  destruct (lookup_lt_is_Some_2 (coedge_to_edge ia) c) as [v Hv]; [lia|].
  exists v. split; [done|].
  eapply Forall_lookup_1 in Hlt; [|done].
  destruct (Hedge c v Hv) as [->|?]; [|done].
  rewrite uint32_small in Hlt by done. lia.
Qed.

Lemma build_mate_length ia :
  build_incidence_arrays body em = Ok ia →
  length (mate ia) = N.to_nat (coedges_num em).
Proof. intros [Hfill _]%build_Ok. by apply fill_lengths in Hfill as (_ & ? & _). Qed.

(** X8.  In the returned arrays a coedge and its mate have the same
    underlying edge: [coedge_to_edge[c] == coedge_to_edge[mate[c]]]. *)
Theorem mate_shares_edge ia (c m : N) :
  build_incidence_arrays body em = Ok ia →
  mate ia !! N.to_nat c = Some m →
  ∃ e, coedge_to_edge ia !! N.to_nat c = Some e ∧
       coedge_to_edge ia !! N.to_nat m = Some e.
Proof.
  intros Hbuild Hm.
  pose proof (lookup_lt_Some _ _ _ Hm) as Hc.
  pose proof (build_mate_length _ Hbuild) as Hlen. rewrite Hlen in Hc.
  destruct (mate_entry_written _ _ _ Hbuild Hm)
    as (Hmlt & x & ci & e & Hx & Hci & Hex & Herx & Hbranch).
  apply N2Nat.inj in Hci as ->.
  destruct (edge_entry_written _ _ Hbuild Hc)
    as (v & Hv & x' & ci' & e' & Hx' & Hci' & Hex' & ->).
  apply N2Nat.inj in Hci' as ->.
  assert (x' = x) as -> by by eapply Hinj.
  assert (e' = e) as -> by congruence.
  exists (uint32 e). split; [done|].
  destruct (edge_entry_written ia (N.to_nat m) Hbuild)
    as (v2 & Hv2 & y & cy & ey & Hy & Hcy & Hey & ->); [lia|].
  apply N2Nat.inj in Hcy as ->. rewrite Hv2. do 2 f_equal.
  destruct (oriented_edge_exists em (reversed_edge x)).
  - destruct Hbranch as (mi & Hmi & Hmilt & ->).
    rewrite uint32_small in Hy by lia.
    assert (y = reversed_edge x) as -> by by eapply Hinj. congruence.
  - subst m. rewrite uint32_small in Hy by lia.
    assert (y = x) as -> by by eapply Hinj. congruence.
Qed.

(** The geometric reverse of the reverse is the coedge itself. *)
Hypothesis Hrev : ∀ x : Coedge, reversed_edge (reversed_edge x) = x.
(** A coedge that has an id is one the entity mapper reports as existing. *)
Hypothesis Hexists : ∀ x i,
  oriented_edge_index em x = Some i → oriented_edge_exists em x = true.

(** X9.  In the returned arrays mating is an involution:
    [mate[mate[c]] == c], a coedge that is its own mate included. *)
Theorem mate_involution ia (c m : N) :
  build_incidence_arrays body em = Ok ia →
  mate ia !! N.to_nat c = Some m →
  mate ia !! N.to_nat m = Some c.
Proof.
  intros Hbuild Hm.
  pose proof (lookup_lt_Some _ _ _ Hm) as Hc.
  pose proof (build_mate_length _ Hbuild) as Hlen. rewrite Hlen in Hc.
  destruct (mate_entry_written _ _ _ Hbuild Hm)
    as (Hmlt & x & ci & e & Hx & Hci & Hex & Herx & Hbranch).
  apply N2Nat.inj in Hci as ->.
  destruct (oriented_edge_exists em (reversed_edge x)) eqn:Hexr.
  - destruct Hbranch as (mi & Hmi & Hmilt & ->).
    rewrite uint32_small by lia. rewrite uint32_small in Hmlt by lia.
    destruct (lookup_lt_is_Some_2 (mate ia) (N.to_nat mi)) as [v Hv]; [lia|].
    destruct (mate_entry_written _ _ _ Hbuild Hv)
      as (Hvlt & y & cy & ey & Hy & Hcy & _ & _ & Hbranch).
    apply N2Nat.inj in Hcy as ->.
    assert (y = reversed_edge x) as -> by by eapply Hinj.
    rewrite Hrev, (Hexists _ _ Hx) in Hbranch.
    destruct Hbranch as (mi' & Hmi' & _ & ->).
    assert (mi' = c) as -> by congruence.
    by rewrite uint32_small in Hv by lia.
  - subst m. rewrite uint32_small by lia.
    by rewrite uint32_small in Hm by lia.
Qed.
End BuilderMates.

(** ** The sample entity mapper keeps the contract of the external service *)

Lemma sample_position_Some x l i :
  Sample.position x l = Some i → l !! N.to_nat i = Some x.
Proof.
  revert i. induction l as [|y l IH]; intros i; simpl; [done|].
  case_decide as Hxy.
  - intros [= <-]. by subst.
  - destruct (Sample.position x l) as [j|]; simpl; [|done].
    intros [= <-]. rewrite N2Nat.inj_succ. simpl. by apply IH.
Qed.

Lemma sample_index_inj l ne nf x y i :
  oriented_edge_index (Sample.mapper l ne nf) x = Some i →
  oriented_edge_index (Sample.mapper l ne nf) y = Some i → x = y.
Proof.
  simpl. intros Hx%sample_position_Some Hy%sample_position_Some. congruence.
Qed.

Lemma sample_index_exists l ne nf x i :
  oriented_edge_index (Sample.mapper l ne nf) x = Some i →
  oriented_edge_exists (Sample.mapper l ne nf) x = true.
Proof.
  simpl. intros Hx%sample_position_Some. apply bool_decide_eq_true.
  by eapply list_elem_of_lookup_2.
Qed.

Lemma sample_reversed_involutive (x : N * bool) :
  reversed_edge (reversed_edge x) = x.
Proof. by destruct x as [e []]. Qed.

Lemma sample_edge_reversed l ne nf (x : N * bool) :
  edge_index (Sample.mapper l ne nf) (reversed_edge x)
  = edge_index (Sample.mapper l ne nf) x.
Proof. done. Qed.

Lemma mate_shares_edge_witness :
  ∃ ia,
    build_incidence_arrays two_faces_body two_faces_mapper = Ok ia ∧
    mate ia !! N.to_nat 0 = Some 2 ∧
    ∃ e, coedge_to_edge ia !! N.to_nat 0 = Some e ∧
         coedge_to_edge ia !! N.to_nat 2 = Some e.
Proof.
  eexists. split; [by vm_compute|]. split; [by vm_compute|].
  refine (mate_shares_edge two_faces_body two_faces_mapper
            ltac:(by vm_compute) _ _ 0 2 ltac:(by vm_compute)
            ltac:(by vm_compute)).
  apply sample_index_inj.
Defined.

Lemma mate_involution_witness :
  ∃ ia,
    build_incidence_arrays two_faces_body two_faces_mapper = Ok ia ∧
    mate ia !! N.to_nat 0 = Some 2 ∧
    mate ia !! N.to_nat 2 = Some 0.
Proof.
  eexists. split; [by vm_compute|]. split; [by vm_compute|].
  refine (mate_involution two_faces_body two_faces_mapper
            ltac:(by vm_compute) _ _ _ _ 0 2 ltac:(by vm_compute)
            ltac:(by vm_compute)).
  - apply sample_index_inj.
  - apply sample_reversed_involutive.
  - apply sample_index_exists.
Defined.

Lemma simple_edge_output_witness :
  ∃ g,
    simple_edge (test_features 2) (test_features 1) (test_features 2)
                test_incidence_arrays = Ok g ∧
    (∃ senders receivers,
       g !! "senders" = Some (Ids senders) ∧
       g !! "receivers" = Some (Ids receivers) ∧
       length senders = length receivers ∧
       Forall (λ v, v < 5) senders ∧ Forall (λ v, v < 5) receivers) ∧
    g !! "face_features" = Some (Features (test_features 2)) ∧
    g !! "edge_features" = Some (Features (test_features 1)) ∧
    g !! "coedge_features" = Some (Features (test_features 2)) ∧
    (∀ k m, g !! k = Some (Features m) →
       k = "face_features" ∨ k = "edge_features" ∨ k = "coedge_features").
Proof.
  eexists. split; [by vm_compute|].
  exact (simple_edge_output (test_features 2) (test_features 1)
           (test_features 2) test_incidence_arrays _ ltac:(by vm_compute)).
Defined.
